(** * A shallow embedding of the chat Hub (hub.go)

    The repository holds two revisions of [hub.go]: the first one, where a
    frame is plain text wrapped in a [Message] that carries its room, and
    the revised one, where frames are JSON envelopes
    [{type, room, payload}].  The revised file is embedded in full below
    (data model, [Hub.Run], [readPump], [writePump], [serveWs]); the event
    loop of the first revision is embedded in [Module Legacy].

    Conventions.
    - A Go [string] and a Go [[]byte] are both a [string].
    - A [*Client] is a record of the immutable fields of the pointed-to
      struct plus an address tag, so that record equality is pointer
      equality.  The only mutable part of a client, its [send] channel,
      lives in a store of channel states indexed by the client.
    - [map[*Client]bool] is only ever written with [true] and only read
      through the comma-ok form, so it is a [gset Client].
    - [encoding/json], the clock and the [Repository] are collaborators:
      they are interfaces here, with one instance each further down. *)

From Stdlib Require Import ZArith Ascii String List.
From stdpp Require Import base decidable option list gmap sets strings countable pretty.

Open Scope string_scope.
Open Scope Z_scope.

(** ** Data model *)

(** [type Envelope struct] *)
Record Envelope := mkEnvelope {
  Type_   : string;   (* `json:"type"`    *)
  Room    : string;   (* `json:"room"`    *)
  Payload : string    (* json.RawMessage  *)
}.

(** [type Message struct] *)
Record Message := mkMessage {
  Username  : string;
  Text      : string;
  Timestamp : Z       (* int64 *)
}.

(** [type TypingStatus struct] *)
Record TypingStatus := mkTypingStatus {
  User   : string;
  Status : bool
}.

Global Instance Envelope_eq_dec : EqDecision Envelope.
Proof. solve_decision. Defined.
Global Instance Message_eq_dec : EqDecision Message.
Proof. solve_decision. Defined.
Global Instance TypingStatus_eq_dec : EqDecision TypingStatus.
Proof. solve_decision. Defined.

(** Go zero values, the state of a [var x T] before [json.Unmarshal]. *)
Definition zeroEnvelope : Envelope := mkEnvelope EmptyString EmptyString EmptyString.
Definition zeroMessage : Message := mkMessage EmptyString EmptyString 0.
Definition zeroTypingStatus : TypingStatus := mkTypingStatus EmptyString false.

(** [type Client struct]: [room] and [username] are set once in [serveWs];
    [addr] stands for the address of the allocation. *)
Record Client := mkClient {
  addr     : positive;
  room     : string;
  username : string
}.

Global Instance Client_eq_dec : EqDecision Client.
Proof. solve_decision. Defined.

Global Instance Client_countable : Countable Client.
Proof.
  refine (inj_countable'
            (fun c => (addr c, room c, username c))
            (fun t => mkClient t.1.1 t.1.2 t.2) _).
  intros []; reflexivity.
Defined.

(** The state of a [chan []byte]: the buffered values, oldest first, and
    whether [close] has been called. *)
Record Chan := mkChan {
  buf    : list string;
  closed : bool
}.

(** [make(chan []byte, 256)] in [serveWs]. *)
Definition sendCap : nat := 256.
Definition newChan : Chan := mkChan [] false.

Definition full (ch : Chan) : bool := Nat.leb sendCap (length (buf ch)).

(** [type Hub struct]: the two maps.  The three event channels are
    unbuffered; what travels on them is an [event]. *)
Record Hub := mkHub {
  clients : gset Client;
  rooms   : gmap string (gset Client)
}.

Inductive event :=
  | Register (client : Client)
  | Unregister (client : Client)
  | Broadcast (message : string).

(** ** Collaborators *)

(** [type Repository interface].  [SaveMessage] returns the new store and
    whether the returned [error] is non-nil. *)
Class Repository (DB : Type) := {
  SaveMessage : Message → DB → DB * bool;
  GetLastMessages : string → Z → DB → list Message * bool
}.

(** The calls of [encoding/json] made by the program.  An unmarshal
    returns the target as the call leaves it, starting from the zero
    value, and whether [err != nil]; a marshal returns [None] on error. *)
Class Json := {
  unmarshalEnvelope : string → Envelope * bool;
  unmarshalMessage : string → Message * bool;
  unmarshalTypingStatus : string → TypingStatus * bool;
  (* json.Marshal(struct{Type; Room; Payload Message}{...}) *)
  marshalChat : string → string → Message → option string;
  (* json.Marshal(struct{Type; Room; Payload TypingStatus}{...}) *)
  marshalTyping : string → string → TypingStatus → option string
}.

(** ** What the Hub leaves behind

    A ghost record of the observable actions, oldest first. *)
Inductive effect :=
  | Logged (line : string)                 (* log.Println *)
  | Saved (msg : Message) (failed : bool)  (* h.db.SaveMessage(msg) *)
  | Sent (c : Client) (message : string)   (* c.send <- message went through *)
  | Closed (c : Client)                    (* close(c.send) *)
  | Wrote (c : Client) (message : string)  (* WriteMessage(TextMessage, message) *)
  | WroteClose (c : Client).               (* WriteMessage(CloseMessage, []byte{}) *)

Global Instance effect_eq_dec : EqDecision effect.
Proof. solve_decision. Defined.

(** How one iteration of a loop ends. *)
Inductive outcome (A : Type) :=
  | Next (a : A)                     (* back to the top of the loop *)
  | Blocked (a : A) (c : Client)     (* stuck in [h.unregister <- c] *)
  | Panic (a : A) (why : string).    (* run-time panic *)
Arguments Next {A} a.
Arguments Blocked {A} a c.
Arguments Panic {A} a why.

Section HubRun.
Context {DB : Type} {repo : Repository DB} {json : Json}.

(** The program state: the Hub, the [send] channels, the store behind
    [h.db], the write pumps that have returned, and what was done. *)
Record World := mkWorld {
  hub     : Hub;
  chans   : gmap Client Chan;
  db      : DB;
  stopped : gset Client;
  trace   : list effect
}.

(** A client whose channel was never touched still has the one made in
    [serveWs]. *)
Definition chan_of (w : World) (c : Client) : Chan :=
  default newChan (chans w !! c).

(** [h.rooms[r]]: a missing key reads as the nil map. *)
Definition members (h : Hub) (r : string) : gset Client :=
  default ∅ (rooms h !! r).

Definition emit (e : effect) (w : World) : World :=
  mkWorld (hub w) (chans w) (db w) (stopped w) (trace w ++ [e]).

Definition set_hub (h : Hub) (w : World) : World :=
  mkWorld h (chans w) (db w) (stopped w) (trace w).

Definition set_chan (c : Client) (ch : Chan) (w : World) : World :=
  mkWorld (hub w) (<[c := ch]> (chans w)) (db w) (stopped w) (trace w).

Definition set_db (d : DB) (w : World) : World :=
  mkWorld (hub w) (chans w) d (stopped w) (trace w).

Definition stop (c : Client) (w : World) : World :=
  mkWorld (hub w) (chans w) (db w) ({[c]} ∪ stopped w) (trace w).

(** [NewHub(db)] *)
Definition NewHub (d : DB) : World :=
  mkWorld (mkHub ∅ ∅) ∅ d ∅ [].

(** [case client := <-h.register] *)
Definition on_register (client : Client) (w : World) : outcome World :=
  let h := hub w in
  Next (set_hub
          (mkHub ({[client]} ∪ clients h)
                 (<[room client := {[client]} ∪ members h (room client)]> (rooms h)))
          w).

(** [case client := <-h.unregister] *)
Definition on_unregister (client : Client) (w : World) : outcome World :=
  let h := hub w in
  if decide (client ∈ clients h) then
    let w1 := set_hub (mkHub (clients h ∖ {[client]}) (rooms h)) w in
    let ch := chan_of w1 client in
    if closed ch then Panic w1 "close of closed channel"
    else Next (emit (Closed client) (set_chan client (mkChan (buf ch) true) w1))
  else Next w.

(** The loop [for client := range h.rooms[env.Room]], over the members
    in the order [order] in which the range visits them. *)
Fixpoint fanout (order : list Client) (message : string) (w : World)
  : outcome World :=
  match order with
  | [] => Next w
  | client :: rest =>
      if decide (client ∈ clients (hub w)) then
        let ch := chan_of w client in
        if closed ch then Panic w "send on closed channel"
        else if full ch then
          (* default: h.unregister <- client; the channel is unbuffered
             and its only receiver is this very loop *)
          Blocked w client
        else
          fanout rest message
            (emit (Sent client message)
               (set_chan client (mkChan (buf ch ++ [message]) false) w))
      else fanout rest message w   (* continue *)
  end.

(** The persistence part of [case message := <-h.broadcast]. *)
Definition persist (env : Envelope) (w : World) : World :=
  if decide (Type_ env = "chat_message") then
    match unmarshalMessage (Payload env) with
    | (msg, false) =>
        let '(d, failed) := SaveMessage msg (db w) in
        let w1 := emit (Saved msg failed) (set_db d w) in
        if failed then emit (Logged "SaveMessage error:") w1 else w1
    | (_, true) => w
    end
  else w.

(** [case message := <-h.broadcast] *)
Definition on_broadcast (order : list Client) (message : string) (w : World)
  : outcome World :=
  match unmarshalEnvelope message with
  | (_, true) => Next (emit (Logged "unmarshal envelope error:") w)
  | (env, false) => fanout order message (persist env w)
  end.

(** One iteration of [for { select { ... } }] in [Hub.Run]. *)
Definition handle (ev : event) (order : list Client) (w : World)
  : outcome World :=
  match ev with
  | Register client => on_register client w
  | Unregister client => on_unregister client w
  | Broadcast message => on_broadcast order message w
  end.

(** The room whose members a broadcast ranges over. *)
Definition target (ev : event) (w : World) : gset Client :=
  match ev with
  | Broadcast message => members (hub w) (Room (unmarshalEnvelope message).1)
  | _ => ∅
  end.

(** Go leaves the order of a [range] over a map open: any enumeration of
    the set without repetition is a possible one. *)
Definition range_of (s : gset Client) (order : list Client) : Prop :=
  order ≡ₚ elements s.

Inductive step (w : World) (ev : event) : outcome World → Prop :=
  | step_handle order :
      range_of (target ev w) order → step w ev (handle ev order w).

(** ** The goroutines around the Hub

    What a goroutine does to the rest of the program, one [action] per
    communication. *)
Inductive pump := ReadPump | WritePump.

Inductive action :=
  | ALog (line : string)                  (* log.Println *)
  | AHttpError (code : Z)                 (* http.Error(w, ..., code) *)
  | ASend (c : Client) (message : string) (* c.send <- message *)
  | AEvent (ev : event)                   (* a send on a channel of the Hub *)
  | AGo (p : pump) (c : Client)           (* go c.writePump(), go c.readPump() *)
  | AWrite (c : Client) (fails : bool)    (* one turn of c.writePump *)
  | AConnClose (c : Client).              (* c.conn.Close() *)

(** What [c.conn.ReadMessage()] returns: a frame, read when the clock
    shows [now], or an error. *)
Inductive read :=
  | Frame (message : string) (now : Z)
  | ReadError.

(** The body of the loop of [readPump] on a frame. *)
Definition readPump_frame (message : string) (now : Z) : list action :=
  let '(wrap, err) := unmarshalEnvelope message in
  (if err then [ALog "unmarshal wrap error:"] else []) ++
  if decide (Type_ wrap = "chat_message") then
    let '(msg, err) := unmarshalMessage (Payload wrap) in
    (if err then [ALog "Unmarshal chat message error:"] else []) ++
    let msg := mkMessage (Username msg) (Text msg) now in
    let jsonMsg := default EmptyString (marshalChat (Type_ wrap) (Room wrap) msg) in
    [AEvent (Broadcast jsonMsg)]
  else if decide (Type_ wrap = "typing_status") then
    let '(ts, err) := unmarshalTypingStatus (Payload wrap) in
    (if err then [ALog "typing status unmarshal error:"] else []) ++
    let jsonMsg := default EmptyString (marshalTyping (Type_ wrap) (Room wrap) ts) in
    [AEvent (Broadcast jsonMsg)]
  else [].

(** [func (c *Client) readPump()], on what the transport delivers.  When
    the reads run out, the pump is waiting in [ReadMessage]. *)
Fixpoint readPump (c : Client) (reads : list read) : list action :=
  match reads with
  | [] => []
  | ReadError :: _ => [AEvent (Unregister c); AConnClose c]
  | Frame message now :: rest => readPump_frame message now ++ readPump c rest
  end.

(** Whether [readPump] is still in its loop after these reads. *)
Fixpoint reading (reads : list read) : bool :=
  match reads with
  | [] => true
  | ReadError :: _ => false
  | Frame _ _ :: rest => reading rest
  end.

(** One turn of the loop of [writePump]; [fails] tells whether
    [WriteMessage] returns an error.  [None]: the pump has returned
    before, or its receive blocks.  A pump that returns is [stopped];
    its deferred [c.conn.Close()] leaves no record. *)
Definition writePump_turn (c : Client) (fails : bool) (w : World)
  : option World :=
  if decide (c ∈ stopped w) then None
  else
    let ch := chan_of w c in
    match buf ch with
    | message :: rest =>
        let w1 := set_chan c (mkChan rest (closed ch)) w in
        if fails then Some (stop c (emit (Logged "WriteMessage error: ") w1))
        else Some (emit (Wrote c message) w1)
    | [] =>
        if closed ch then Some (stop c (emit (WroteClose c) w)) else None
    end.

(** The replay loop of [serveWs]. *)
Fixpoint replay (client : Client) (lastMessages : list Message) : list action :=
  match lastMessages with
  | [] => []
  | msg :: rest =>
      match marshalChat "chat_message" (room client) msg with
      | None => ALog "LastMessage Marshal error:" :: replay client rest
      | Some jsonMsg => ASend client jsonMsg :: replay client rest
      end
  end.

(** [func serveWs]: [a] is the address of the [Client] it allocates,
    [upgraded] whether [upgrader.Upgrade] succeeds, [d] the store when
    [GetLastMessages] is called. *)
Definition serveWs (a : positive) (room username : string) (upgraded : bool)
    (d : DB) : list action :=
  if decide (room = EmptyString ∨ username = EmptyString) then [AHttpError 400]
  else if negb upgraded then [ALog "upgrade error"]
  else
    let client := mkClient a room username in
    (match GetLastMessages room 10 d with
     | (_, true) => [ALog "GetLastMessages error:"]
     | (lastMessages, false) => replay client lastMessages
     end)
    ++ [AEvent (Register client); AGo WritePump client; AGo ReadPump client].

(** ** The program as a transition system *)

(** [c.send <- message] outside a [select]: it waits while the buffer is
    full, and panics on a closed channel. *)
Definition enqueue (c : Client) (message : string) (w : World) : World :=
  emit (Sent c message)
    (set_chan c (mkChan (buf (chan_of w c) ++ [message]) (closed (chan_of w c))) w).

Inductive sys_step (w : World) : action → outcome World → Prop :=
  | sys_log line : sys_step w (ALog line) (Next (emit (Logged line) w))
  | sys_http code : sys_step w (AHttpError code) (Next w)
  | sys_go p c : sys_step w (AGo p c) (Next w)
  | sys_conn_close c : sys_step w (AConnClose c) (Next w)
  | sys_send c message :
      closed (chan_of w c) = false → full (chan_of w c) = false →
      sys_step w (ASend c message) (Next (enqueue c message w))
  | sys_send_closed c message :
      closed (chan_of w c) = true →
      sys_step w (ASend c message) (Panic w "send on closed channel")
  | sys_write c fails w' :
      writePump_turn c fails w = Some w' →
      sys_step w (AWrite c fails) (Next w')
  | sys_event ev o : step w ev o → sys_step w (AEvent ev) o.

(** A schedule: the actions of all goroutines in the order in which they
    take place, up to the first one that does not come back. *)
Inductive exec (w : World) : list action → outcome World → Prop :=
  | exec_idle : exec w [] (Next w)
  | exec_next a acts w' o :
      sys_step w a (Next w') → exec w' acts o → exec w (a :: acts) o
  | exec_blocked a acts w' c :
      sys_step w a (Blocked w' c) → exec w (a :: acts) (Blocked w' c)
  | exec_panic a acts w' why :
      sys_step w a (Panic w' why) → exec w (a :: acts) (Panic w' why).

(** [Hub.Run] over the events it receives, in the order received. *)
Definition Run (w : World) (evs : list event) (o : outcome World) : Prop :=
  exec w (AEvent <$> evs) o.

(** A client is registered after [serveWs] has made its channel and
    before anything closed it; this is all the program assumes of a
    [Register] event. *)
Definition admissible (w : World) (a : action) : Prop :=
  match a with
  | AEvent (Register c) => closed (chan_of w c) = false
  | _ => True
  end.

(** The worlds the program can be in. *)
Inductive reachable : World → Prop :=
  | reachable_new d : reachable (NewHub d)
  | reachable_step w a w' :
      reachable w → admissible w a → sys_step w a (Next w') → reachable w'.

(** ** Reading the record *)

(** The deliveries, in order: who was sent what. *)
Definition delivery (e : effect) : option (Client * string) :=
  match e with
  | Sent c message => Some (c, message)
  | _ => None
  end.

Definition deliveries (t : list effect) : list (Client * string) :=
  omap delivery t.

(** What was put into [c.send], in order. *)
Definition sent_to (c : Client) (t : list effect) : list string :=
  omap (fun e => match e with
                 | Sent c' message => if decide (c' = c) then Some message else None
                 | _ => None
                 end) t.

(** What the write pump of [c] wrote to its transport, in order. *)
Definition wrote (c : Client) (t : list effect) : list string :=
  omap (fun e => match e with
                 | Wrote c' message => if decide (c' = c) then Some message else None
                 | _ => None
                 end) t.

(** The calls of [SaveMessage], in order. *)
Definition saves (t : list effect) : list (Message * bool) :=
  omap (fun e => match e with
                 | Saved msg failed => Some (msg, failed)
                 | _ => None
                 end) t.

(** How often [c.send] was closed. *)
Definition closes (c : Client) (t : list effect) : nat :=
  length (filter (fun e => e = Closed c) t).

(** The events and the log lines among the actions of a goroutine. *)
Definition events (acts : list action) : list event :=
  omap (fun a => match a with AEvent ev => Some ev | _ => None end) acts.

Definition sends (acts : list action) : list (Client * string) :=
  omap (fun a => match a with ASend c message => Some (c, message) | _ => None end)
       acts.

Definition logs (acts : list action) : list string :=
  omap (fun a => match a with ALog line => Some line | _ => None end) acts.

(** ** Invariants of the two maps *)

(** Who a broadcast to room [r] reaches. *)
Definition receivers (w : World) (r : string) : gset Client :=
  filter (fun c => room c = r) (clients (hub w)).

Definition registry_in_index (w : World) : Prop :=
  ∀ c, c ∈ clients (hub w) → c ∈ members (hub w) (room c).

Definition index_by_room (w : World) : Prop :=
  ∀ r c, c ∈ members (hub w) r → room c = r.

Definition registered_open (w : World) : Prop :=
  ∀ c, c ∈ clients (hub w) → closed (chan_of w c) = false.

Record Inv (w : World) : Prop := mkInv {
  inv_registry : registry_in_index w;
  inv_index : index_by_room w;
  inv_open : registered_open w
}.


(** [c] has just been allocated: nothing knows of it yet. *)
Record fresh (w : World) (c : Client) : Prop := mkFresh {
  fresh_registry : c ∉ clients (hub w);
  fresh_chan : chans w !! c = None;
  fresh_pump : c ∉ stopped w;
  fresh_sent : sent_to c (trace w) = [];
  fresh_wrote : wrote c (trace w) = []
}.



End HubRun.

(** ** The event loop of the first revision (src/hub.go)

    There a broadcast is a marshalled [Message] that names its room, the
    result of [json.Unmarshal] and of [SaveMessage] is dropped, and a
    client whose buffer is full is closed and deleted inside the range. *)
Module Legacy.

(** [type Message struct] of the first revision. *)
Record Message := mkMessage {
  Room      : string;
  Username  : string;
  Text      : string;
  Timestamp : Z
}.

Section Run.
Context {DB : Type}.
(** [h.db.SaveMessage] and [json.Unmarshal(message, &msg)]. *)
Variable SaveMessage : Message → DB → DB * bool.
Variable unmarshalMessage : string → Message * bool.

(** [for client := range h.rooms[msg.Room]] *)
Fixpoint fanout (order : list Client) (message : string) (w : World (DB:=DB))
  : outcome World :=
  match order with
  | [] => Next w
  | client :: rest =>
      let ch := chan_of w client in
      if closed ch then Panic w "send on closed channel"
      else if full ch then
        (* default: close(client.send); delete(h.clients, client) *)
        fanout rest message
          (set_hub (mkHub (clients (hub w) ∖ {[client]}) (rooms (hub w)))
             (emit (Closed client) (set_chan client (mkChan (buf ch) true) w)))
      else
        fanout rest message
          (emit (Sent client message)
             (set_chan client (mkChan (buf ch ++ [message]) false) w))
  end.

(** [case message := <-h.broadcast] *)
Definition on_broadcast (order : list Client) (message : string)
    (w : World (DB:=DB)) : outcome World :=
  let msg := (unmarshalMessage message).1 in
  fanout order message (set_db (SaveMessage msg (db w)).1 w).

Definition handle (ev : event) (order : list Client) (w : World (DB:=DB))
  : outcome World :=
  match ev with
  | Register client => on_register client w
  | Unregister client => on_unregister client w
  | Broadcast message => on_broadcast order message w
  end.

Definition target (ev : event) (w : World (DB:=DB)) : gset Client :=
  match ev with
  | Broadcast message => members (hub w) (Room (unmarshalMessage message).1)
  | _ => ∅
  end.

Inductive step (w : World (DB:=DB)) (ev : event) : outcome World → Prop :=
  | step_handle order :
      range_of (target ev w) order → step w ev (handle ev order w).

(** [Hub.Run] over the events it receives. *)
Inductive Run (w : World (DB:=DB)) : list event → outcome World → Prop :=
  | Run_idle : Run w [] (Next w)
  | Run_next ev evs w' o :
      step w ev (Next w') → Run w' evs o → Run w (ev :: evs) o
  | Run_blocked ev evs w' c :
      step w ev (Blocked w' c) → Run w (ev :: evs) (Blocked w' c)
  | Run_panic ev evs w' why :
      step w ev (Panic w' why) → Run w (ev :: evs) (Panic w' why).
End Run.

End Legacy.

(** ** A codec to run the program on concrete frames

    An instance of [Json] for a fragment of [encoding/json]: JSON text in
    ASCII without [\u] escapes, decoded into the three structs the way
    [json.Unmarshal] does it (a syntax error leaves the target untouched;
    keys match field names without regard to case; unknown keys are
    skipped; [null] leaves a field as it is; a value of the wrong kind is
    skipped and reported, and the remaining keys are still decoded; a
    [json.RawMessage] takes the text of the value), and encoded with the
    escapes of [json.Marshal] for printable ASCII. *)
Set Warnings "-register-all".
Module MiniJson.

Definition dq : ascii := ascii_of_nat 34.
Definition bs : ascii := ascii_of_nat 92.

(** JSON text is written below with ['] for the double quote. *)
Fixpoint js (s : string) : string :=
  match s with
  | EmptyString => EmptyString
  | String c s' => String (if decide (c = "'"%char) then dq else c) (js s')
  end.

Inductive value :=
  | VNull
  | VBool (b : bool)
  | VNum (z : option Z)
  | VStr (s : string)
  | VArr (l : list value)
  | VObj (l : list (string * (value * string))).

Definition is_ws (c : ascii) : bool :=
  match nat_of_ascii c with
  | 32%nat | 9%nat | 10%nat | 13%nat => true
  | _ => false
  end.

Fixpoint skip_ws (s : string) : string :=
  match s with
  | String c s' => if is_ws c then skip_ws s' else s
  | EmptyString => EmptyString
  end.

Definition digit (c : ascii) : option Z :=
  let n := Z.of_nat (nat_of_ascii c) in
  if decide (48 ≤ n ≤ 57) then Some (n - 48) else None.

Fixpoint digits (acc : Z) (s : string) : Z * nat * string :=
  match s with
  | String c s' =>
      match digit c with
      | Some d => let '(z, n, r) := digits (acc * 10 + d) s' in (z, S n, r)
      | None => (acc, O, s)
      end
  | EmptyString => (acc, O, s)
  end.

Definition unescape (c : ascii) : option ascii :=
  match nat_of_ascii c with
  | 34%nat => Some dq
  | 92%nat => Some bs
  | 47%nat => Some "/"%char
  | 98%nat => Some (ascii_of_nat 8)
  | 102%nat => Some (ascii_of_nat 12)
  | 110%nat => Some (ascii_of_nat 10)
  | 114%nat => Some (ascii_of_nat 13)
  | 116%nat => Some (ascii_of_nat 9)
  | _ => None
  end.

Fixpoint string_body (s : string) : option (string * string) :=
  match s with
  | EmptyString => None
  | String c s' =>
      if decide (c = dq) then Some (EmptyString, s')
      else if decide (c = bs) then
        match s' with
        | String e s'' =>
            match unescape e with
            | Some ch => (fun '(t, r) => (String ch t, r)) <$> string_body s''
            | None => None
            end
        | EmptyString => None
        end
      else if (nat_of_ascii c <? 32)%nat then None
      else (fun '(t, r) => (String c t, r)) <$> string_body s'
  end.

Definition starts (p s : string) : option string :=
  if String.prefix p s then Some (String.substring (String.length p) (String.length s - String.length p) s)
  else None.

Definition fraction (s : string) : option (bool * string) :=
  match s with
  | String "." s' =>
      match digits 0 s' with
      | (_, O, _) => None
      | (_, _, r) => Some (true, r)
      end
  | _ => Some (false, s)
  end.

Definition exponent (s : string) : option (bool * string) :=
  match s with
  | String c s' =>
      if decide (c = "e"%char ∨ c = "E"%char) then
        let s'' := match s' with
                   | String sg t => if decide (sg = "+"%char ∨ sg = "-"%char) then t else s'
                   | EmptyString => s'
                   end in
        match digits 0 s'' with
        | (_, O, _) => None
        | (_, _, r) => Some (true, r)
        end
      else Some (false, s)
  | EmptyString => Some (false, s)
  end.

Definition number (s : string) : option (option Z * string) :=
  let '(neg, s1) := match s with
                    | String "-" t => (true, t)
                    | _ => (false, s)
                    end in
  '(z, r) ← match s1 with
            | String "0" t => Some (0, t)
            | _ => match digits 0 s1 with
                   | (_, O, _) => None
                   | (z, _, r) => Some (z, r)
                   end
            end;
  '(f, r1) ← fraction r;
  '(e, r2) ← exponent r1;
  Some (if f || e then None else Some (if neg then - z else z), r2).

Definition raw_of (before after : string) : string :=
  String.substring 0 (String.length before - String.length after) before.

Fixpoint parse_value (fuel : nat) (s : string) : option (value * string) :=
  match fuel with
  | O => None
  | S fuel =>
      match s with
      | EmptyString => None
      | String c s' =>
          if decide (c = "{"%char) then
            match skip_ws s' with
            | String "}" r => Some (VObj [], r)
            | r => (fun '(l, r) => (VObj l, r)) <$> parse_members fuel r
            end
          else if decide (c = "["%char) then
            match skip_ws s' with
            | String "]" r => Some (VArr [], r)
            | r => (fun '(l, r) => (VArr l, r)) <$> parse_elements fuel r
            end
          else if decide (c = dq) then
            (fun '(t, r) => (VStr t, r)) <$> string_body s'
          else if String.prefix "true" s then (fun r => (VBool true, r)) <$> starts "true" s
          else if String.prefix "false" s then (fun r => (VBool false, r)) <$> starts "false" s
          else if String.prefix "null" s then (fun r => (VNull, r)) <$> starts "null" s
          else (fun '(z, r) => (VNum z, r)) <$> number s
      end
  end
with parse_members (fuel : nat) (s : string)
  : option (list (string * (value * string)) * string) :=
  match fuel with
  | O => None
  | S fuel =>
      match s with
      | String c s' =>
          if decide (c = dq) then
            '(key, r) ← string_body s';
            match skip_ws r with
            | String ":" r1 =>
                let r2 := skip_ws r1 in
                '(v, r3) ← parse_value fuel r2;
                let m := (key, (v, raw_of r2 r3)) in
                match skip_ws r3 with
                | String "," r4 =>
                    (fun '(l, r) => (m :: l, r)) <$> parse_members fuel (skip_ws r4)
                | String "}" r4 => Some ([m], r4)
                | _ => None
                end
            | _ => None
            end
          else None
      | EmptyString => None
      end
  end
with parse_elements (fuel : nat) (s : string) : option (list value * string) :=
  match fuel with
  | O => None
  | S fuel =>
      '(v, r) ← parse_value fuel s;
      match skip_ws r with
      | String "," r1 =>
          (fun '(l, r) => (v :: l, r)) <$> parse_elements fuel (skip_ws r1)
      | String "]" r1 => Some ([v], r1)
      | _ => None
      end
  end.

(** The whole input is one value between optional white space. *)
Definition parse (s : string) : option value :=
  '(v, r) ← parse_value (S (String.length s)) (skip_ws s);
  match skip_ws r with
  | EmptyString => Some v
  | _ => None
  end.

Definition lower (c : ascii) : ascii :=
  let n := nat_of_ascii c in
  if decide (65 ≤ n ≤ 90)%nat then ascii_of_nat (n + 32) else c.

Fixpoint fold_case (s : string) : string :=
  match s with
  | EmptyString => EmptyString
  | String c s' => String (lower c) (fold_case s')
  end.

Definition is_field (name key : string) : bool :=
  bool_decide (fold_case key = name).

(** Decoding into a field of the given kind: the new content of the
    field and whether the value was of the wrong kind. *)
Definition into_string (v : value) (old : string) : string * bool :=
  match v with
  | VStr s => (s, false)
  | VNull => (old, false)
  | _ => (old, true)
  end.

Definition into_int64 (v : value) (old : Z) : Z * bool :=
  match v with
  | VNum (Some z) =>
      if decide (- 2 ^ 63 ≤ z < 2 ^ 63) then (z, false) else (old, true)
  | VNull => (old, false)
  | _ => (old, true)
  end.

Definition into_bool (v : value) (old : bool) : bool * bool :=
  match v with
  | VBool b => (b, false)
  | VNull => (old, false)
  | _ => (old, true)
  end.

(** Decoding the members of an object into a struct, one after the
    other; the error flag is kept once raised. *)
Definition into_struct {T : Type}
    (field : string → value * string → T → T * bool)
    (zero : T) (s : string) : T * bool :=
  match parse s with
  | None => (zero, true)
  | Some (VObj l) =>
      foldl (fun '(t, err) '(key, v) =>
               let '(t', err') := field key v t in (t', err || err'))
            (zero, false) l
  | Some VNull => (zero, false)
  | Some _ => (zero, true)
  end.

Definition Envelope_field (key : string) (v : value * string) (e : Envelope)
  : Envelope * bool :=
  if is_field "type" key then
    let '(x, err) := into_string v.1 (Type_ e) in
    (mkEnvelope x (Room e) (Payload e), err)
  else if is_field "room" key then
    let '(x, err) := into_string v.1 (Room e) in
    (mkEnvelope (Type_ e) x (Payload e), err)
  else if is_field "payload" key then
    (mkEnvelope (Type_ e) (Room e) v.2, false)
  else (e, false).

Definition Message_field (key : string) (v : value * string) (m : Message)
  : Message * bool :=
  if is_field "username" key then
    let '(x, err) := into_string v.1 (Username m) in
    (mkMessage x (Text m) (Timestamp m), err)
  else if is_field "text" key then
    let '(x, err) := into_string v.1 (Text m) in
    (mkMessage (Username m) x (Timestamp m), err)
  else if is_field "timestamp" key then
    let '(x, err) := into_int64 v.1 (Timestamp m) in
    (mkMessage (Username m) (Text m) x, err)
  else (m, false).

Definition TypingStatus_field (key : string) (v : value * string)
    (t : TypingStatus) : TypingStatus * bool :=
  if is_field "user" key then
    let '(x, err) := into_string v.1 (User t) in
    (mkTypingStatus x (Status t), err)
  else if is_field "status" key then
    let '(x, err) := into_bool v.1 (Status t) in
    (mkTypingStatus (User t) x, err)
  else (t, false).

Definition hex (n : nat) : string :=
  String.substring n 1 "0123456789abcdef".

Fixpoint escape (s : string) : string :=
  match s with
  | EmptyString => EmptyString
  | String c s' =>
      let n := nat_of_ascii c in
      (if decide (c = dq ∨ c = bs) then String bs (String c EmptyString)
       else if decide (n = 10)%nat then String bs "n"
       else if decide (n = 13)%nat then String bs "r"
       else if decide (n = 9)%nat then String bs "t"
       else if decide (n < 32 ∨ c = "<"%char ∨ c = ">"%char ∨ c = "&"%char)%nat
            then String bs "u00" ++ hex (n / 16) ++ hex (n mod 16)
       else String c EmptyString) ++ escape s'
  end.

Definition quote (s : string) : string :=
  String dq (escape s) ++ String dq EmptyString.

Definition wrap (type room payload : string) : string :=
  js "{'type':" ++ quote type ++ js ",'room':" ++ quote room
    ++ js ",'payload':" ++ payload ++ "}".

Definition Message_text (m : Message) : string :=
  js "{'username':" ++ quote (Username m) ++ js ",'text':" ++ quote (Text m)
    ++ js ",'timestamp':" ++ pretty (Timestamp m) ++ "}".

Definition TypingStatus_text (t : TypingStatus) : string :=
  js "{'user':" ++ quote (User t) ++ js ",'status':"
    ++ (if Status t then "true" else "false") ++ "}".

Definition codec : Json := {|
  unmarshalEnvelope := into_struct Envelope_field zeroEnvelope;
  unmarshalMessage := into_struct Message_field zeroMessage;
  unmarshalTypingStatus := into_struct TypingStatus_field zeroTypingStatus;
  marshalChat t r m := Some (wrap t r (Message_text m));
  marshalTyping t r ts := Some (wrap t r (TypingStatus_text ts))
|}.

End MiniJson.

(** ** [type MockDB struct{}]

    The mock keeps nothing; the state it is given here is the reading of
    the clock that [GetLastMessages] sees. *)
Definition MockDB : Repository Z := {|
  SaveMessage msg now := (now, false);
  GetLastMessages room count now :=
    ([mkMessage "Alice" "Hello!" (now - 10); mkMessage "Bob" "Hi Alice!" (now - 5)],
     false)
|}.

Open Scope list_scope.

(** ** Comparing outcomes *)

Definition world_of {A : Type} (o : outcome A) : A :=
  match o with
  | Next a | Blocked a _ | Panic a _ => a
  end.

Definition outcome_map {A B : Type} (f : A → B) (o : outcome A) : outcome B :=
  match o with
  | Next a => Next (f a)
  | Blocked a c => Blocked (f a) c
  | Panic a why => Panic (f a) why
  end.

(** What delivery is about: the two maps, the queues, the deliveries. *)
Definition view {DB : Type} (w : World (DB:=DB))
  : Hub * gmap Client Chan * list (Client * string) :=
  (hub w, chans w, deliveries (trace w)).

(** ** Running a schedule *)

Section Running.
Context {DB : Type} {repo : Repository DB} {json : Json}.

(** [sys_step] as a function, with the range of a broadcast taken in
    the order of [elements].  [None]: the action has to wait. *)
Definition perform (a : action) (w : World (DB:=DB)) : option (outcome World) :=
  match a with
  | ALog line => Some (Next (emit (Logged line) w))
  | AHttpError _ | AGo _ _ | AConnClose _ => Some (Next w)
  | ASend c message =>
      if closed (chan_of w c) then Some (Panic w "send on closed channel")
      else if full (chan_of w c) then None
      else Some (Next (enqueue c message w))
  | AWrite c fails => Next <$> writePump_turn c fails w
  | AEvent ev => Some (handle ev (elements (target ev w)) w)
  end.

Fixpoint run (acts : list action) (w : World (DB:=DB)) : option (outcome World) :=
  match acts with
  | [] => Some (Next w)
  | a :: rest =>
      match perform a w with
      | Some (Next w') => run rest w'
      | r => r
      end
  end.


Definition final (w : World (DB:=DB)) (r : option (outcome World)) : World :=
  match r with
  | Some o => world_of o
  | None => w
  end.

(** The world after the clients [cs] have registered, in this order. *)
Definition joined (cs : list Client) (w : World (DB:=DB)) : World :=
  foldl (fun w c => world_of (on_register c w)) w cs.

(** The world after [n] more broadcasts of [message] that visit
    [order]. *)
Definition flooded (n : nat) (order : list Client) (message : string)
    (w : World (DB:=DB)) : World :=
  Nat.iter n (fun w => world_of (on_broadcast order message w)) w.

(** ** The order of a join *)

(** The actions [serveWs] takes for client [c]. *)
Definition own (c : Client) (a : action) : Prop :=
  match a with
  | ASend c' _ => c' = c
  | AEvent ev => ev = Register c
  | AWrite _ _ => False
  | _ => True
  end.


(** The queue of [c] is first in, first out: what the write pump wrote
    so far, then what is still to come, is what was put in. *)
Definition fifo (c : Client) (w : World (DB:=DB)) : Prop :=
  ∃ pending,
    sent_to c (trace w) = wrote c (trace w) ++ pending ∧
    (c ∉ stopped w → pending = buf (chan_of w c)).
End Running.

(** ** Sample data *)

(** A repository whose [SaveMessage] always fails. *)
Definition FailingDB : Repository unit := {|
  SaveMessage msg d := (d, true);
  GetLastMessages room count d := ([], true)
|}.

Module Frames.
Import MiniJson.

(** The moment the sample frames are read. *)
Definition T : Z := 1700000000.

(** The chat message of the scenario in the specification, and what
    [readPump] sends to the Hub for it. *)
Definition hello : string :=
  js "{'type':'chat_message','room':'lobby','payload':{'username':'alice','text':'hi','timestamp':0}}".

Definition hello_forwarded : string :=
  js "{'type':'chat_message','room':'lobby','payload':{'username':'alice','text':'hi','timestamp':1700000000}}".

(** A chat message whose payload is a JSON string, not an object, and
    what [readPump] sends to the Hub for it. *)
Definition oops : string :=
  js "{'type':'chat_message','room':'lobby','payload':'oops'}".

Definition oops_forwarded : string :=
  js "{'type':'chat_message','room':'lobby','payload':{'username':'','text':'','timestamp':1700000000}}".

(** An envelope whose room is a number. *)
Definition bad_room : string :=
  js "{'type':'chat_message','room':5,'payload':{'username':'alice','text':'hi','timestamp':0}}".

Definition bad_room_forwarded : string :=
  js "{'type':'chat_message','room':'','payload':{'username':'alice','text':'hi','timestamp':1700000000}}".

(** The unknown type tag of the scenario in the specification. *)
Definition ping : string := js "{'type':'ping','room':'lobby','payload':{}}".

Definition typing : string :=
  js "{'type':'typing_status','room':'lobby','payload':{'user':'carol','status':true}}".
End Frames.

Module Sample.
Import Frames.
#[local] Existing Instance MockDB.
#[local] Existing Instance MiniJson.codec.

Definition alice : Client := mkClient 1 "lobby" "alice".
Definition bob : Client := mkClient 2 "lobby" "bob".
Definition carol : Client := mkClient 3 "other" "carol".
Definition dave : Client := mkClient 4 "lobby" "dave".

(** The empty Hub over the mock repository, the clock at [T]. *)
Definition w0 : World (DB:=Z) := NewHub T.

(** [alice] has registered. *)
Definition w_alice : World (DB:=Z) :=
  set_hub (mkHub {[alice]} {["lobby" := {[alice]}]}) w0.

(** [alice] has registered and has gone again. *)
Definition w_gone : World (DB:=Z) :=
  emit (Closed alice)
    (set_chan alice (mkChan [] true)
       (set_hub (mkHub ∅ {["lobby" := {[alice]}]}) w0)).

(** [alice] and [bob] are in the lobby, [carol] is in the other room. *)
Definition w_three : World (DB:=Z) := joined [alice; bob; carol] w0.

(** [alice] has registered, 256 chat messages were broadcast to the
    lobby, and the write pump of [alice] has written none of them. *)
Definition w_full : World (DB:=Z) := flooded 256 [alice] hello w_alice.

(** What [serveWs] does for [dave]. *)
Definition dave_joins : list action := serveWs 4 "lobby" "dave" true T.


(** [dave] joins while the broadcast is on its way; the Hub handles it
    after the registration of [dave]. *)
Definition schedule : list action :=
  take 3 dave_joins ++ [AEvent (Broadcast hello_forwarded)]
    ++ drop 3 dave_joins ++ [AWrite alice false].

Definition w_joined : World (DB:=Z) := final w_alice (run schedule w_alice).
End Sample.

(** ** Sample data for the first revision (src/hub.go) *)

Module LegacySample.
Import MiniJson.

(** [json.Unmarshal(message, &msg)] into the [Message] of the first
    revision, which carries its room. *)
Definition Message_field (key : string) (v : value * string)
    (m : Legacy.Message) : Legacy.Message * bool :=
  if is_field "room" key then
    let '(x, err) := into_string v.1 (Legacy.Room m) in
    (Legacy.mkMessage x (Legacy.Username m) (Legacy.Text m)
       (Legacy.Timestamp m), err)
  else if is_field "username" key then
    let '(x, err) := into_string v.1 (Legacy.Username m) in
    (Legacy.mkMessage (Legacy.Room m) x (Legacy.Text m)
       (Legacy.Timestamp m), err)
  else if is_field "text" key then
    let '(x, err) := into_string v.1 (Legacy.Text m) in
    (Legacy.mkMessage (Legacy.Room m) (Legacy.Username m) x
       (Legacy.Timestamp m), err)
  else if is_field "timestamp" key then
    let '(x, err) := into_int64 v.1 (Legacy.Timestamp m) in
    (Legacy.mkMessage (Legacy.Room m) (Legacy.Username m) (Legacy.Text m) x,
     err)
  else (m, false).

Definition unmarshalMessage : string → Legacy.Message * bool :=
  into_struct Message_field
    (Legacy.mkMessage EmptyString EmptyString EmptyString 0).

(** [json.Marshal(msg)] for the [Message] of the first revision. *)
Definition marshalMessage (m : Legacy.Message) : option string :=
  Some (js "{'room':" ++ quote (Legacy.Room m)
          ++ js ",'username':" ++ quote (Legacy.Username m)
          ++ js ",'text':" ++ quote (Legacy.Text m)
          ++ js ",'timestamp':" ++ pretty (Legacy.Timestamp m) ++ "}")%string.

(** [func (m *MockDB) SaveMessage]: it logs and returns nil. *)
Definition SaveMessage (msg : Legacy.Message) (now : Z) : Z * bool :=
  (now, false).

(** What the read pump of [alice] sends to the Hub for the text
    [hi]. *)
Definition hello : string :=
  js "{'room':'lobby','username':'alice','text':'hi','timestamp':1700000000}".

(** The world after [n] more broadcasts of [message] that visit
    [order]. *)
Definition flooded (n : nat) (order : list Client) (message : string)
    (w : World (DB:=Z)) : World :=
  Nat.iter n
    (fun w => world_of
                (Legacy.on_broadcast SaveMessage unmarshalMessage order message w))
    w.

(** [alice] has registered, 256 messages were broadcast to the lobby,
    and the write pump of [alice] has written none of them. *)
Definition w_full : World (DB:=Z) := flooded 256 [Sample.alice] hello Sample.w_alice.
End LegacySample.

(** A repository with a long history: [GetLastMessages] returns 257
    messages, whatever count it is asked for. *)
Definition LongHistoryDB : Repository unit := {|
  SaveMessage msg d := (d, false);
  GetLastMessages room count d :=
    (repeat (mkMessage "Alice" "Hello!" 0) 257, false)
|}.

(** ** The read pump of the first revision (src/hub.go) *)

Module LegacyPumps.
Section Pumps.
(** [json.Marshal(msg)]; [None] on error. *)
Variable marshalMessage : Legacy.Message → option string.

(** [func (c *Client) readPump()]: every frame is the text of a
    message of the client, in the room of the client. *)
Fixpoint readPump (c : Client) (reads : list read) : list action :=
  match reads with
  | [] => []
  | ReadError :: _ => [AEvent (Unregister c)]
  | Frame message now :: rest =>
      let msg := Legacy.mkMessage (room c) (username c) message now in
      let jsonMsg := default EmptyString (marshalMessage msg) in
      AEvent (Broadcast jsonMsg) :: readPump c rest
  end.
End Pumps.
End LegacyPumps.

(** * Facts *)

Section Basics.
Context {DB : Type} {repo : Repository DB} {json : Json}.
Implicit Types (w : World (DB:=DB)) (c : Client).

Lemma chan_of_set_chan w c ch c' :
  chan_of (set_chan c ch w) c' = if decide (c = c') then ch else chan_of w c'.
Proof.
  unfold chan_of, set_chan; simpl. rewrite lookup_insert.
  destruct (decide (c = c')); reflexivity.
Qed.

Lemma chan_of_emit w e c : chan_of (emit e w) c = chan_of w c.
Proof. reflexivity. Qed.

Lemma chan_of_stop w c c' : chan_of (stop c w) c' = chan_of w c'.
Proof. reflexivity. Qed.

Lemma full_false ch : full ch = false ↔ (length (buf ch) < sendCap)%nat.
Proof. unfold full. apply Nat.leb_gt. Qed.

Lemma full_true ch : full ch = true ↔ (sendCap ≤ length (buf ch))%nat.
Proof. unfold full. apply Nat.leb_le. Qed.

Lemma sent_to_app c t1 t2 : sent_to c (t1 ++ t2) = sent_to c t1 ++ sent_to c t2.
Proof. apply omap_app. Qed.

Lemma wrote_app c t1 t2 : wrote c (t1 ++ t2) = wrote c t1 ++ wrote c t2.
Proof. apply omap_app. Qed.

Lemma deliveries_app t1 t2 : deliveries (t1 ++ t2) = deliveries t1 ++ deliveries t2.
Proof. apply omap_app. Qed.

Lemma saves_app t1 t2 : saves (t1 ++ t2) = saves t1 ++ saves t2.
Proof. apply omap_app. Qed.

Lemma closes_app c t1 t2 : closes c (t1 ++ t2) = (closes c t1 + closes c t2)%nat.
Proof. unfold closes. rewrite filter_app, length_app. reflexivity. Qed.

(** What a fan-out does to one client, however it ends. *)
Lemma fanout_effect c order message w :
  let w' := world_of (fanout order message w) in
  hub w' = hub w ∧ db w' = db w ∧ stopped w' = stopped w ∧
  wrote c (trace w') = wrote c (trace w) ∧
  closed (chan_of w' c) = closed (chan_of w c) ∧
  ∃ n, sent_to c (trace w') = sent_to c (trace w) ++ repeat message n ∧
       buf (chan_of w' c) = buf (chan_of w c) ++ repeat message n ∧
       (c ∉ clients (hub w) → n = 0%nat).
Proof.
  revert w. induction order as [|client rest IH]; intros w; simpl.
  - repeat split; try reflexivity. exists 0%nat. simpl.
    rewrite !app_nil_r. auto.
  - destruct (decide (client ∈ clients (hub w))) as [Hin|Hout]; [|apply IH].
    destruct (closed (chan_of w client)) eqn:Hcl; simpl.
    { repeat split; try reflexivity. exists 0%nat; simpl.
      rewrite !app_nil_r; auto. }
    destruct (full (chan_of w client)) eqn:Hfull; simpl.
    { repeat split; try reflexivity. exists 0%nat; simpl.
      rewrite !app_nil_r; auto. }
    specialize (IH (emit (Sent client message)
                      (set_chan client
                         (mkChan (buf (chan_of w client) ++ [message]) false) w))).
    simpl in IH. destruct IH as (Hh & Hd & Hs & Hw & Hc & n & Hn1 & Hn2 & Hn3).
    rewrite Hh, Hd, Hs, Hw, Hc. clear Hh Hd Hs Hw Hc.
    rewrite wrote_app. simpl. rewrite app_nil_r.
    rewrite chan_of_emit, chan_of_set_chan in *.
    repeat split; try reflexivity.
    + destruct (decide (client = c)); subst; simpl; auto.
    + rewrite sent_to_app in Hn1. simpl in Hn1.
      destruct (decide (client = c)) as [->|Hne]; simpl in *.
      * exists (S n). rewrite Hn1, Hn2. simpl.
        rewrite <- !app_assoc. simpl. split; [reflexivity|].
        split; [reflexivity|]. intros Hc. contradiction.
      * exists n. rewrite Hn1, Hn2, app_nil_r. auto.
Qed.
End Basics.

Section Invariants.
Context {DB : Type} {repo : Repository DB} {json : Json}.
Implicit Types (w : World (DB:=DB)) (c : Client).

Lemma persist_same env w :
  hub (persist env w) = hub w ∧ chans (persist env w) = chans w ∧
  stopped (persist env w) = stopped w.
Proof.
  unfold persist. destruct (decide _); [|done].
  destruct (unmarshalMessage _) as [msg []]; [done|].
  destruct (SaveMessage _ _) as [d []]; done.
Qed.

Lemma chan_of_persist env w c : chan_of (persist env w) c = chan_of w c.
Proof. unfold chan_of. by rewrite (proj1 (proj2 (persist_same env w))). Qed.

Lemma persist_trace env w :
  ∃ t, trace (persist env w) = trace w ++ t ∧
       Forall (fun e => match e with Saved _ _ | Logged _ => True | _ => False end) t.
Proof.
  unfold persist. destruct (decide _); [|exists []; by rewrite app_nil_r].
  destruct (unmarshalMessage _) as [msg []]; [exists []; by rewrite app_nil_r|].
  destruct (SaveMessage _ _) as [d []]; simpl.
  - exists [Saved msg true; Logged "SaveMessage error:"].
    rewrite <- app_assoc. split; [done|]. by repeat constructor.
  - exists [Saved msg false]. split; [done|]. by repeat constructor.
Qed.

Lemma members_register w c r :
  members (mkHub ({[c]} ∪ clients (hub w))
                 (<[room c := {[c]} ∪ members (hub w) (room c)]> (rooms (hub w)))) r
  = if decide (room c = r) then {[c]} ∪ members (hub w) r else members (hub w) r.
Proof.
  unfold members at 1; simpl. rewrite lookup_insert.
  destruct (decide (room c = r)) as [<-|]; reflexivity.
Qed.

Lemma handle_Inv w ev order w' :
  Inv w → admissible w (AEvent ev) → handle ev order w = Next w' → Inv w'.
Proof.
  intros [Hr Hi Ho] Hadm Hh. destruct ev as [c|c|message]; simpl in *.
  - injection Hh as <-. split.
    + intros c'. simpl. rewrite members_register. intros Hc'.
      destruct (decide (room c = room c')) as [Heq|Hne].
      * apply elem_of_union in Hc' as [->%elem_of_singleton|Hc'];
          [set_solver|]. apply elem_of_union_r. by apply Hr.
      * apply elem_of_union in Hc' as [->%elem_of_singleton|Hc']; [done|].
        by apply Hr.
    + intros r c'. simpl. rewrite members_register.
      destruct (decide (room c = r)) as [Heq|Hne]; [|apply Hi].
      intros [->%elem_of_singleton|Hc']%elem_of_union; [done|]. by apply Hi.
    + intros c'. simpl. unfold chan_of; simpl.
      intros [->%elem_of_singleton|Hc']%elem_of_union; [done|]. by apply Ho.
  - unfold on_unregister in Hh.
    destruct (decide (c ∈ clients (hub w))) as [Hin|Hout];
      [|injection Hh as <-; by split].
    simpl in Hh. destruct (closed _) eqn:Hcl; [done|]. injection Hh as <-.
    split.
    + intros c'. simpl. intros [Hc' _]%elem_of_difference. by apply Hr.
    + intros r c'. simpl. apply Hi.
    + intros c'. simpl. intros [Hc' Hne]%elem_of_difference.
      rewrite chan_of_emit, chan_of_set_chan.
      destruct (decide (c = c')) as [->|]; [set_solver|]. by apply Ho.
  - unfold on_broadcast in Hh.
    destruct (unmarshalEnvelope message) as [env []].
    { injection Hh as <-. by split. }
    pose proof (persist_same env w) as (Hph & Hpc & Hps).
    assert (Hw' : w' = world_of (fanout order message (persist env w)))
      by (by rewrite Hh).
    assert (Hhub : hub w' = hub w).
    { rewrite Hw'.
      destruct (fanout_effect (mkClient 1 EmptyString EmptyString) order message (persist env w))
        as (-> & _). done. }
    split.
    + intros c'. rewrite Hhub. apply Hr.
    + intros r c'. rewrite Hhub. apply Hi.
    + intros c'. rewrite Hhub. intros Hc'. rewrite Hw'.
      destruct (fanout_effect c' order message (persist env w))
        as (_ & _ & _ & _ & -> & _).
      rewrite chan_of_persist. by apply Ho.
Qed.

Lemma writePump_turn_chan c fails w w' c' :
  writePump_turn c fails w = Some w' →
  hub w' = hub w ∧ closed (chan_of w' c') = closed (chan_of w c').
Proof.
  unfold writePump_turn. destruct (decide _); [done|].
  destruct (buf (chan_of w c)) as [|m rest] eqn:Hb.
  - destruct (closed (chan_of w c)); [|done]. by intros [= <-].
  - destruct fails; intros [= <-]; (split; [done|]);
      rewrite ?chan_of_stop, chan_of_emit, chan_of_set_chan;
      destruct (decide (c = c')) as [->|]; done.
Qed.

Lemma sys_step_Inv w a w' :
  Inv w → admissible w a → sys_step w a (Next w') → Inv w'.
Proof.
  intros HI Hadm Hs. inversion Hs; subst; try done.
  - destruct HI; by split.
  - destruct HI as [Hr Hi Ho]. split; try done.
    intros c' Hc'. unfold enqueue. rewrite chan_of_emit, chan_of_set_chan.
    destruct (decide (c = c')) as [->|]; simpl; [done|]. by apply Ho.
  - destruct HI as [Hr Hi Ho].
    match goal with H : writePump_turn _ _ _ = _ |- _ => rename H into Hturn end.
    split.
    + intros c'. destruct (writePump_turn_chan _ _ _ _ c' Hturn) as [-> _]. apply Hr.
    + intros r c'. destruct (writePump_turn_chan _ _ _ _ c' Hturn) as [-> _]. apply Hi.
    + intros c'. destruct (writePump_turn_chan _ _ _ _ c' Hturn) as [-> ->]. apply Ho.
  - match goal with H : step _ _ _ |- _ => inversion H as [order Hrange Heq] end.
    symmetry in Heq. by eapply handle_Inv.
Qed.

Lemma NewHub_Inv (d : DB) : Inv (NewHub d).
Proof. split; intros ?; simpl; set_solver. Qed.

Lemma reachable_Inv w : reachable w → Inv w.
Proof.
  induction 1 as [d|w a w' _ IH Hadm Hs]; [apply NewHub_Inv|].
  by eapply sys_step_Inv.
Qed.
End Invariants.

Section Steps.
Context {DB : Type} {repo : Repository DB} {json : Json}.
Implicit Types (w : World (DB:=DB)) (c : Client).

Lemma sys_step_event_inv w ev o :
  sys_step w (AEvent ev) o →
  ∃ order, range_of (target ev w) order ∧ o = handle ev order w.
Proof.
  inversion 1 as [| | | | | | |ev' o' Hstep]; subst.
  inversion Hstep as [order Hrange Heq]. by exists order.
Qed.

Lemma step_total w ev : ∃ o, step w ev o.
Proof.
  eexists. apply (step_handle _ _ (elements (target ev w))).
  unfold range_of. reflexivity.
Qed.

Lemma step_unregister_inv w c o :
  step w (Unregister c) o ↔ o = on_unregister c w.
Proof.
  split.
  - by inversion 1.
  - intros ->. apply (step_handle w (Unregister c) []).
    unfold range_of; simpl. by rewrite elements_empty.
Qed.

Lemma step_register_inv w c o :
  step w (Register c) o ↔ o = on_register c w.
Proof.
  split.
  - by inversion 1.
  - intros ->. apply (step_handle w (Register c) []).
    unfold range_of; simpl. by rewrite elements_empty.
Qed.

Lemma exec_cons_inv w a acts o :
  exec w (a :: acts) o →
  (∃ w', sys_step w a (Next w') ∧ exec w' acts o) ∨
  (sys_step w a o ∧ ∀ w', o ≠ Next w').
Proof.
  inversion 1; subst; [left; eauto|right..]; split; done.
Qed.

Lemma exec_nil_inv w o : exec w [] o → o = Next w.
Proof. by inversion 1. Qed.

(** Unregistering a registered client of a world where the registered
    channels are open. *)
Lemma on_unregister_registered w c :
  c ∈ clients (hub w) → closed (chan_of w c) = false →
  ∃ w', on_unregister c w = Next w' ∧
        clients (hub w') = clients (hub w) ∖ {[c]} ∧
        rooms (hub w') = rooms (hub w) ∧
        chan_of w' c = mkChan (buf (chan_of w c)) true ∧
        trace w' = trace w ++ [Closed c].
Proof.
  intros Hin Hcl. unfold on_unregister.
  destruct (decide _) as [_|]; [|done]. simpl.
  change (chan_of (set_hub _ w) c) with (chan_of w c). rewrite Hcl.
  eexists; split; [reflexivity|]. repeat split.
  rewrite chan_of_emit, chan_of_set_chan. by destruct (decide _).
Qed.

Lemma on_unregister_absent w c :
  c ∉ clients (hub w) → on_unregister c w = Next w.
Proof. intros Hout. unfold on_unregister. by destruct (decide _). Qed.

Lemma closes_Closed c : closes c [Closed c] = 1%nat.
Proof.
  unfold closes. rewrite filter_cons_True by done. reflexivity.
Qed.
End Steps.

Section SampleRegistry.
#[local] Existing Instance MockDB.
#[local] Existing Instance MiniJson.codec.
Import Sample.


End SampleRegistry.

Section Registry.
Context {DB : Type} {repo : Repository DB} {json : Json}.
Implicit Types (w : World (DB:=DB)) (c : Client).


(** C5.  From a reachable state two Unregister events for the same
    client always run to the end without a fault; the state after both
    is the state after the first, on which a further Unregister changes
    nothing; and the queue of the client is closed once if the client
    was registered and not at all otherwise. *)
Theorem C5_double_unregister_is_safe w c :
  reachable w →
  ∃ w1, step w (Unregister c) (Next w1) ∧
        Run w [Unregister c; Unregister c] (Next w1) ∧
        (∀ o, Run w [Unregister c; Unregister c] o → o = Next w1) ∧
        (∀ o, step w1 (Unregister c) o → o = Next w1) ∧
        closes c (trace w1) =
          (closes c (trace w) + if decide (c ∈ clients (hub w)) then 1 else 0)%nat.
Proof.
  intros [Hr Hi Ho]%reachable_Inv.
  assert (∃ w1, on_unregister c w = Next w1 ∧ on_unregister c w1 = Next w1 ∧
            closes c (trace w1) =
              (closes c (trace w) + if decide (c ∈ clients (hub w)) then 1 else 0)%nat)
    as (w1 & H1 & H2 & Hcount).
  { destruct (decide (c ∈ clients (hub w))) as [Hin|Hout].
    - destruct (on_unregister_registered w c Hin (Ho c Hin))
        as (w1 & H1 & Hcl & _ & _ & Htr).
      exists w1. split; [done|]. split.
      + apply on_unregister_absent. rewrite Hcl.
        apply not_elem_of_difference; right; by apply elem_of_singleton.
      + by rewrite Htr, closes_app, closes_Closed.
    - exists w. rewrite on_unregister_absent by done. by rewrite Nat.add_0_r. }
  exists w1.
  assert (Hs1 : step w (Unregister c) (Next w1)) by by apply step_unregister_inv.
  assert (Hs2 : step w1 (Unregister c) (Next w1)) by by apply step_unregister_inv.
  split; [done|]. split.
  { unfold Run; simpl. eapply exec_next; [by apply sys_event|].
    eapply exec_next; [by apply sys_event|]. apply exec_idle. }
  split.
  - unfold Run; simpl. intros o Hrun.
    apply exec_cons_inv in Hrun as [(w' & Hst & Hrun)|[Hst Hne]].
    + apply sys_step_event_inv in Hst as (order & _ & Heq). simpl in Heq.
      rewrite H1 in Heq. injection Heq as <-.
      apply exec_cons_inv in Hrun as [(w2 & Hst & Hrun)|[Hst Hne]].
      * apply sys_step_event_inv in Hst as (order' & _ & Heq). simpl in Heq.
        rewrite H2 in Heq. injection Heq as <-. by apply exec_nil_inv in Hrun.
      * apply sys_step_event_inv in Hst as (order' & _ & Heq). simpl in Heq.
        by rewrite H2 in Heq.
    + apply sys_step_event_inv in Hst as (order & _ & Heq). simpl in Heq.
      rewrite H1 in Heq. by destruct (Hne w1).
  - split; [|done]. intros o ->%step_unregister_inv. done.
Qed.
End Registry.

Section SampleRegistryWitness.
#[local] Existing Instance MockDB.
#[local] Existing Instance MiniJson.codec.
Import Sample.

Lemma w_alice_reachable :
reachable w_alice.
Proof.
eapply (reachable_step _ (AEvent (Register alice)));
  [apply reachable_new|reflexivity|].
apply sys_event, step_register_inv.
vm_compute. reflexivity.
Qed.


Lemma C5_double_unregister_is_safe_witness :
∃ w1, step w_alice
        (Unregister alice) (Next w1) ∧
      Run w_alice [Unregister alice; Unregister alice] (Next w1) ∧
      (∀ o, Run w_alice [Unregister alice; Unregister alice] o →
            o = Next w1) ∧
      (∀ o, step w1 (Unregister alice) o → o = Next w1) ∧
      closes alice (trace w1) =
        (closes alice (trace w_alice) +
           if decide (alice ∈ clients (hub w_alice)) then 1 else 0)%nat.
Proof.
apply (C5_double_unregister_is_safe (repo:=MockDB) (json:=MiniJson.codec)).
exact w_alice_reachable.
Defined.

End SampleRegistryWitness.

Section FanOut.
Context {DB : Type} {repo : Repository DB} {json : Json}.
Implicit Types (w : World (DB:=DB)) (c : Client).

Lemma deliveries_persist env w :
  deliveries (trace (persist env w)) = deliveries (trace w).
Proof.
  destruct (persist_trace env w) as (t & -> & Ht).
  rewrite deliveries_app. induction Ht as [|e t He _ IH]; simpl.
  - by rewrite app_nil_r.
  - unfold deliveries in *; simpl. destruct e; done.
Qed.

(** A fan-out with no full queue among the registered clients it
    visits: each of them gets the message once, in the order of the
    visit, and nothing else changes. *)
Lemma fanout_delivers order message w :
  NoDup order → registered_open w →
  (∀ c, c ∈ order → c ∈ clients (hub w) → full (chan_of w c) = false) →
  ∃ w', fanout order message w = Next w' ∧ hub w' = hub w ∧
    deliveries (trace w') =
      deliveries (trace w) ++
        ((fun c => (c, message)) <$> filter (fun c => c ∈ clients (hub w)) order) ∧
    ∀ c, chan_of w' c =
           if decide (c ∈ order ∧ c ∈ clients (hub w))
           then mkChan (buf (chan_of w c) ++ [message]) false
           else chan_of w c.
Proof.
  revert w. induction order as [|client rest IH]; intros w Hnd Hopen Hfull.
  - exists w. simpl. rewrite app_nil_r. split; [done|]. split; [done|].
    split; [done|]. done.
  - apply NoDup_cons in Hnd as [Hnotin Hnd]. simpl.
    destruct (decide (client ∈ clients (hub w))) as [Hin|Hout].
    + rewrite (Hopen client Hin), (Hfull client) by (done || by left).
      set (w1 := emit (Sent client message)
                   (set_chan client
                      (mkChan (buf (chan_of w client) ++ [message]) false) w)).
      destruct (IH w1 Hnd) as (w' & -> & Hhub & Hdel & Hch).
      { intros c Hc. unfold w1. rewrite chan_of_emit, chan_of_set_chan.
        destruct (decide (client = c)); [done|]. by apply Hopen. }
      { intros c Hc Hreg. unfold w1. rewrite chan_of_emit, chan_of_set_chan.
        destruct (decide (client = c)) as [->|]; [done|].
        apply Hfull; [by right|done]. }
      exists w'. split; [done|]. split; [done|]. split.
      * rewrite Hdel. unfold w1 at 1. simpl. rewrite deliveries_app. simpl.
        rewrite filter_cons_True by done. rewrite <- app_assoc. done.
      * intros c. rewrite Hch. unfold w1. rewrite chan_of_emit, chan_of_set_chan.
        simpl. destruct (decide (client = c)) as [->|Hne].
        -- rewrite decide_False by (by intros [? _]).
           rewrite decide_True by (split; [by left|done]). done.
        -- destruct (decide (c ∈ rest ∧ _)) as [[Hc1 Hc2]|Hn].
           ++ rewrite decide_True by (split; [by right|done]). done.
           ++ rewrite decide_False; [done|]. intros [Hc1 Hc2]. apply Hn.
              split; [|done]. apply elem_of_cons in Hc1 as [->|]; done.
    + destruct (IH w Hnd Hopen) as (w' & -> & Hhub & Hdel & Hch).
      { intros c Hc. apply Hfull. by right. }
      exists w'. split; [done|]. split; [done|]. split.
      * rewrite Hdel. by rewrite filter_cons_False.
      * intros c. rewrite Hch.
        destruct (decide (c ∈ rest ∧ _)) as [[Hc1 Hc2]|Hn].
        -- rewrite decide_True by (split; [by right|done]). done.
        -- rewrite decide_False; [done|]. intros [Hc1 Hc2]. apply Hn.
           split; [|done]. apply elem_of_cons in Hc1 as [->|]; done.
Qed.

Lemma elem_of_receivers w c r :
  c ∈ receivers w r ↔ c ∈ clients (hub w) ∧ room c = r.
Proof. unfold receivers. rewrite elem_of_filter. tauto. Qed.

Lemma receivers_members w r c :
  Inv w → (c ∈ members (hub w) r ∧ c ∈ clients (hub w)) ↔ c ∈ receivers w r.
Proof.
  intros [Hr Hi Ho]. rewrite elem_of_receivers. split.
  - intros [Hm Hc]. split; [done|]. by apply Hi.
  - intros [Hc <-]. split; [|done]. by apply Hr.
Qed.

(** A broadcast that names room [Room env] when no client registered in
    that room has a full queue. *)
Lemma broadcast_delivers w message env order :
  Inv w → unmarshalEnvelope message = (env, false) →
  (∀ c, c ∈ receivers w (Room env) → full (chan_of w c) = false) →
  range_of (members (hub w) (Room env)) order →
  ∃ w' ds, on_broadcast order message w = Next w' ∧ hub w' = hub w ∧
    deliveries (trace w') = deliveries (trace w) ++ ds ∧
    ds ≡ₚ (fun c => (c, message)) <$> elements (receivers w (Room env)) ∧
    (∀ c, c ∈ receivers w (Room env) →
          chan_of w' c = mkChan (buf (chan_of w c) ++ [message]) false) ∧
    (∀ c, c ∉ receivers w (Room env) → chan_of w' c = chan_of w c).
Proof.
  intros HI Henv Hfull Hrange. unfold on_broadcast. rewrite Henv.
  pose proof (persist_same env w) as (Hph & Hpc & Hps).
  assert (Hnd : NoDup order).
  { unfold range_of in Hrange. rewrite Hrange. apply NoDup_elements. }
  assert (Hmem : ∀ c, c ∈ order ↔ c ∈ members (hub w) (Room env)).
  { intros c. unfold range_of in Hrange. rewrite Hrange. apply elem_of_elements. }
  destruct (fanout_delivers order message (persist env w) Hnd)
    as (w' & Hf & Hhub & Hdel & Hch).
  { intros c. rewrite Hph, chan_of_persist. apply (inv_open _ HI). }
  { intros c Hc. rewrite Hph, chan_of_persist. intros Hreg. apply Hfull.
    apply receivers_members; [done|]. split; [by apply Hmem|done]. }
  exists w', ((fun c => (c, message)) <$>
               filter (fun c => c ∈ clients (hub (persist env w))) order).
  split; [done|]. split; [by rewrite Hhub|]. split.
  { by rewrite Hdel, deliveries_persist. }
  split.
  { apply fmap_Permutation, NoDup_Permutation.
    - by apply NoDup_filter.
    - apply NoDup_elements.
    - intros c. rewrite list_elem_of_filter, elem_of_elements, Hph, Hmem.
      rewrite <- receivers_members by done. tauto. }
  split.
  - intros c Hc. rewrite Hch, Hph, chan_of_persist.
    apply receivers_members in Hc as [Hc1 Hc2]; [|done].
    rewrite decide_True; [done|]. split; [by apply Hmem|done].
  - intros c Hc. rewrite Hch, Hph, chan_of_persist.
    rewrite decide_False; [done|]. intros [Hc1 Hc2]. apply Hc.
    apply receivers_members; [done|]. split; [by apply Hmem|done].
Qed.

(** C4.  In a reachable state, a broadcast whose envelope decodes, with
    type tag [chat_message] and room [R], when no client registered in
    [R] has a full queue: the event runs to the end; it makes exactly
    one delivery to each client registered in [R], [N] in all, each of
    the very bytes of the event; each of these clients has the bytes
    appended to its queue; the queue of every other client, so of every
    client registered in another room, is as before. *)
Theorem C4_broadcast_reaches_exactly_its_room w message env R o :
  reachable w →
  unmarshalEnvelope message = (env, false) →
  Type_ env = "chat_message" → Room env = R →
  (∀ c, c ∈ receivers w R → full (chan_of w c) = false) →
  step w (Broadcast message) o →
  ∃ w' ds, o = Next w' ∧
    deliveries (trace w') = deliveries (trace w) ++ ds ∧
    length ds = size (receivers w R) ∧
    ds ≡ₚ (fun c => (c, message)) <$> elements (receivers w R) ∧
    (∀ c, c ∈ receivers w R → buf (chan_of w' c) = buf (chan_of w c) ++ [message]) ∧
    (∀ c, c ∉ receivers w R → chan_of w' c = chan_of w c).
Proof.
  intros HI%reachable_Inv Henv _ <- Hfull Hstep.
  inversion Hstep as [order Hrange Heq]. simpl in Hrange. rewrite Henv in Hrange.
  destruct (broadcast_delivers w message env order HI Henv Hfull Hrange)
    as (w' & ds & Hb & _ & Hdel & Hperm & Hin & Hout).
  exists w', ds. simpl. split; [done|]. split; [done|]. split.
  { rewrite Hperm, length_fmap. reflexivity. }
  split; [done|]. split; [|done]. intros c Hc. by rewrite (Hin c Hc).
Qed.
End FanOut.

Section Eviction.
Context {DB : Type} {repo : Repository DB} {json : Json}.
Implicit Types (w : World (DB:=DB)) (c : Client).


Lemma sent_to_persist env w c :
  sent_to c (trace (persist env w)) = sent_to c (trace w).
Proof.
  destruct (persist_trace env w) as (t & -> & Ht).
  rewrite sent_to_app. induction Ht as [|e t He _ IH]; simpl.
  - by rewrite app_nil_r.
  - unfold sent_to in *; simpl. destruct e; done.
Qed.


(** A broadcast does nothing to a client that is not in the registry,
    whether or not it is in the room index. *)
Lemma broadcast_skips_unregistered w message order c :
  c ∉ clients (hub w) →
  sent_to c (trace (world_of (on_broadcast order message w)))
    = sent_to c (trace w) ∧
  chan_of (world_of (on_broadcast order message w)) c = chan_of w c.
Proof.
  intros Hout. unfold on_broadcast.
  destruct (unmarshalEnvelope message) as [env []]; simpl.
  - by rewrite sent_to_app, app_nil_r.
  - destruct (fanout_effect c order message (persist env w))
      as (_ & _ & _ & _ & Hcl & n & Hs & Hb & Hn).
    destruct (persist_same env w) as (Hph & _ & _).
    rewrite Hph in Hn. rewrite (Hn Hout) in Hs, Hb. simpl in Hs, Hb.
    rewrite app_nil_r in Hs, Hb. rewrite sent_to_persist in Hs.
    rewrite chan_of_persist in Hcl, Hb. split; [done|].
    destruct (chan_of (world_of _) c), (chan_of w c); simpl in *. by subst.
Qed.


(** Broadcasting [n] times to a room whose only member, a registered
    client, does not drain its queue, while the queue has room. *)
Lemma flooded_reachable n c message env w :
  reachable w →
  unmarshalEnvelope message = (env, false) →
  members (hub w) (Room env) = {[c]} → c ∈ clients (hub w) →
  (length (buf (chan_of w c)) + n ≤ sendCap)%nat →
  reachable (flooded n [c] message w) ∧
  hub (flooded n [c] message w) = hub w ∧
  chan_of (flooded n [c] message w) c
    = mkChan (buf (chan_of w c) ++ repeat message n) false.
Proof.
  intros Hreach Henv Hmem Hreg. induction n as [|n IH]; intros Hlen.
  - simpl. rewrite app_nil_r. split; [done|]. split; [done|].
    pose proof (inv_open _ (reachable_Inv _ Hreach) c Hreg) as Hcl.
    destruct (chan_of w c); simpl in *. by subst.
  - destruct IH as (IH1 & IH2 & IH3); [lia|].
    set (wn := flooded n [c] message w) in *.
    change (flooded (S n) [c] message w)
      with (world_of (on_broadcast [c] message wn)).
    pose proof (reachable_Inv _ IH1) as HI.
    assert (Hrange : range_of (members (hub wn) (Room env)) [c]).
    { unfold range_of. rewrite IH2, Hmem. by rewrite elements_singleton. }
    destruct (broadcast_delivers wn message env [c] HI Henv)
      as (w' & ds & Hb & Hhub & _ & _ & Hin & _); [|done|].
    { intros c0 [Hc0 _]%receivers_members; [|done].
      rewrite IH2, Hmem in Hc0. apply elem_of_singleton in Hc0 as ->.
      rewrite IH3. apply full_false. cbn [buf].
      rewrite length_app, repeat_length. lia. }
    rewrite Hb. simpl. split; [|split].
    + apply (reachable_step wn (AEvent (Broadcast message))); [done..|].
      apply sys_event. rewrite <- Hb.
      apply (step_handle wn (Broadcast message) [c]). simpl.
      by rewrite Henv.
    + by rewrite Hhub.
    + rewrite Hin.
      * rewrite IH3. simpl. rewrite <- app_assoc.
        by rewrite <- repeat_cons.
      * apply receivers_members; [done|].
        rewrite IH2, Hmem. split; [by apply elem_of_singleton|done].
Qed.
End Eviction.

Section RunFacts.
Context {DB : Type} {repo : Repository DB} {json : Json}.
Implicit Types (w : World (DB:=DB)) (c : Client).

End RunFacts.

Section SampleEviction.
#[local] Existing Instance MockDB.
#[local] Existing Instance MiniJson.codec.
Import Frames Sample.

Lemma hello_envelope :
  unmarshalEnvelope hello =
    (mkEnvelope "chat_message" "lobby"
       (MiniJson.js "{'username':'alice','text':'hi','timestamp':0}"), false).
Proof. vm_compute. reflexivity. Qed.

Lemma w_alice_lobby : members (hub w_alice) "lobby" = {[alice]}.
Proof.
  unfold members, w_alice, set_hub. cbn [hub rooms].
  by rewrite lookup_singleton_eq.
Qed.

Lemma alice_registered : alice ∈ clients (hub w_alice).
Proof.
  unfold w_alice, set_hub. cbn [hub clients]. by apply elem_of_singleton.
Qed.

Lemma alice_chan : chan_of w_alice alice = newChan.
Proof.
  unfold chan_of, w_alice, set_hub, w0, NewHub. cbn [chans].
  by rewrite lookup_empty.
Qed.

Lemma alice_has_room :
  (length (buf (chan_of w_alice alice)) + 256 ≤ sendCap)%nat.
Proof. rewrite alice_chan. apply Nat.leb_le. reflexivity. Qed.

Lemma w_full_facts :
  reachable w_full ∧ hub w_full = hub w_alice ∧
  chan_of w_full alice = mkChan (repeat hello 256) false.
Proof.
  pose proof (flooded_reachable 256 alice hello _ w_alice w_alice_reachable
                hello_envelope w_alice_lobby alice_registered alice_has_room)
    as (Hreach & Hhub & Hch).
  rewrite alice_chan in Hch. split; [exact Hreach|]. split; [exact Hhub|exact Hch].
Qed.




End SampleEviction.

Section Records.
Context {DB : Type} {repo : Repository DB} {json : Json}.

Lemma fanout_trace order message (w : World (DB:=DB)) :
  ∃ t, trace (world_of (fanout order message w)) = trace w ++ t ∧
       Forall (fun e => ∃ c, e = Sent c message) t.
Proof.
  revert w. induction order as [|client rest IH]; intros w; simpl.
  - exists []. by rewrite app_nil_r.
  - destruct (decide (client ∈ clients (hub w))); [|apply IH].
    destruct (closed (chan_of w client)); [exists []; by rewrite app_nil_r|].
    destruct (full (chan_of w client)); [exists []; by rewrite app_nil_r|].
    destruct (IH (emit (Sent client message)
                    (set_chan client
                       (mkChan (buf (chan_of w client) ++ [message]) false) w)))
      as (t & -> & Ht).
    exists (Sent client message :: t). simpl. rewrite <- app_assoc.
    split; [done|]. constructor; [by exists client|done].
Qed.

Lemma fanout_saves order message (w : World (DB:=DB)) :
  saves (trace (world_of (fanout order message w))) = saves (trace w).
Proof.
  destruct (fanout_trace order message w) as (t & -> & Ht).
  rewrite saves_app. induction Ht as [|e t [c ->] _ IH]; simpl.
  - by rewrite app_nil_r.
  - exact IH.
Qed.

Lemma persist_view env (w : World (DB:=DB)) : view (persist env w) = view w.
Proof.
  unfold view. destruct (persist_same env w) as (-> & -> & _).
  by rewrite deliveries_persist.
Qed.

End Records.

Section Persistence.
Context {DB DB' : Type} {repo : Repository DB} {repo' : Repository DB'}
        {json : Json}.

(** A fan-out looks at the two maps and at the queues only. *)
Lemma fanout_view order message (w : World (DB:=DB)) (w' : World (DB:=DB')) :
  view w = view w' →
  outcome_map view (fanout order message w)
  = outcome_map view (fanout order message w').
Proof.
  revert w w'. induction order as [|client rest IH]; intros w w' Hv; simpl.
  - by rewrite Hv.
  - assert (Hh : hub w = hub w') by (by injection Hv).
    assert (Hc : chans w = chans w') by (by injection Hv).
    assert (Hd : deliveries (trace w) = deliveries (trace w')) by (by injection Hv).
    assert (Hch : chan_of w client = chan_of w' client)
      by (unfold chan_of; by rewrite Hc).
    rewrite <- Hh, <- Hch.
    destruct (decide (client ∈ clients (hub w))); [|by apply IH].
    destruct (closed (chan_of w client)); [simpl; by rewrite Hv|].
    destruct (full (chan_of w client)); [simpl; by rewrite Hv|].
    apply IH. unfold view; simpl. rewrite !deliveries_app.
    by rewrite Hh, Hc, Hd.
Qed.

(** C8.  On a Broadcast event the Hub calls [SaveMessage], once and
    with the decoded message, when the envelope decodes, its type tag
    is [chat_message] and its payload decodes, and does not call it
    otherwise; a failure of the call is logged; and what the event does
    to the two maps, to the queues and to the deliveries, and how it
    ends, is the same whatever repository is behind the Hub and
    whatever its calls return. *)
Theorem C8_persistence_is_decoupled_from_delivery
    order message (w : World (DB:=DB)) (w' : World (DB:=DB')) :
  (∀ env msg,
      unmarshalEnvelope message = (env, false) →
      Type_ env = "chat_message" →
      unmarshalMessage (Payload env) = (msg, false) →
      saves (trace (world_of (on_broadcast order message w)))
        = saves (trace w) ++ [(msg, (SaveMessage msg (db w)).2)] ∧
      ((SaveMessage msg (db w)).2 = true →
       Logged "SaveMessage error:"
         ∈ trace (world_of (on_broadcast order message w)))) ∧
  ((¬ ∃ env msg,
        unmarshalEnvelope message = (env, false) ∧
        Type_ env = "chat_message" ∧
        unmarshalMessage (Payload env) = (msg, false)) →
   saves (trace (world_of (on_broadcast order message w))) = saves (trace w)) ∧
  (view w = view w' →
   outcome_map view (on_broadcast (repo:=repo) order message w)
   = outcome_map view (on_broadcast (repo:=repo') order message w')).
Proof.
  split; [|split].
  - intros env msg Henv Htype Hmsg. unfold on_broadcast. rewrite Henv.
    rewrite fanout_saves.
    destruct (fanout_trace order message (persist env w)) as (t & -> & _).
    unfold persist. rewrite decide_True by done. rewrite Hmsg.
    destruct (SaveMessage msg (db w)) as [d failed]; simpl.
    destruct failed; simpl.
    + rewrite !saves_app. simpl. rewrite app_nil_r. split; [done|].
      intros _. apply elem_of_app. left. apply elem_of_app. right.
      by apply list_elem_of_singleton.
    + rewrite saves_app. simpl. split; [done|]. done.
  - intros Hnot. unfold on_broadcast.
    destruct (unmarshalEnvelope message) as [env []] eqn:Henv; simpl.
    { rewrite saves_app. simpl. by rewrite app_nil_r. }
    rewrite fanout_saves. unfold persist.
    destruct (decide (Type_ env = "chat_message")) as [Htype|]; [|done].
    destruct (unmarshalMessage (Payload env)) as [msg []] eqn:Hmsg; [done|].
    exfalso. apply Hnot. by exists env, msg.
  - intros Hv. unfold on_broadcast.
    destruct (unmarshalEnvelope message) as [env []]; simpl.
    + unfold view in *; simpl. rewrite !deliveries_app. simpl.
      rewrite !app_nil_r. by rewrite Hv.
    + apply fanout_view. by rewrite !persist_view.
Qed.
End Persistence.

Section ReadPump.
Context {json : Json}.
Implicit Types (c : Client) (message : string) (now : Z).

Lemma events_app (l1 l2 : list action) : events (l1 ++ l2) = events l1 ++ events l2.
Proof. apply omap_app. Qed.

Lemma logs_app (l1 l2 : list action) : logs (l1 ++ l2) = logs l1 ++ logs l2.
Proof. apply omap_app. Qed.

Lemma events_log_if (b : bool) line :
  events (if b then [ALog line] else []) = [].
Proof. by destruct b. Qed.

(** What the body of the loop sends to the Hub, by type tag; errors of
    the two decodings do not change it. *)
Lemma readPump_frame_events message now wrap err :
  unmarshalEnvelope message = (wrap, err) →
  events (readPump_frame message now) =
    if decide (Type_ wrap = "chat_message") then
      let msg := (unmarshalMessage (Payload wrap)).1 in
      [Broadcast (default EmptyString (marshalChat (Type_ wrap) (Room wrap)
                                (mkMessage (Username msg) (Text msg) now)))]
    else if decide (Type_ wrap = "typing_status") then
      [Broadcast (default EmptyString (marshalTyping (Type_ wrap) (Room wrap)
                                (unmarshalTypingStatus (Payload wrap)).1))]
    else [].
Proof.
  intros Henv. unfold readPump_frame. rewrite Henv.
  rewrite events_app, events_log_if. simpl.
  destruct (decide (Type_ wrap = "chat_message")).
  - destruct (unmarshalMessage (Payload wrap)) as [msg err'].
    rewrite events_app, events_log_if. reflexivity.
  - destruct (decide (Type_ wrap = "typing_status")); [|done].
    destruct (unmarshalTypingStatus (Payload wrap)) as [ts err'].
    rewrite events_app, events_log_if. reflexivity.
Qed.

(** Every decode failure is logged. *)
Lemma readPump_frame_logs_envelope_failure message now wrap :
  unmarshalEnvelope message = (wrap, true) →
  "unmarshal wrap error:" ∈ logs (readPump_frame message now).
Proof.
  intros Henv. unfold readPump_frame. rewrite Henv. rewrite logs_app.
  apply elem_of_app. left. by apply list_elem_of_singleton.
Qed.

Lemma readPump_frame_logs_payload_failure message now wrap err msg :
  unmarshalEnvelope message = (wrap, err) →
  Type_ wrap = "chat_message" →
  unmarshalMessage (Payload wrap) = (msg, true) →
  "Unmarshal chat message error:" ∈ logs (readPump_frame message now).
Proof.
  intros Henv Htype Hmsg. unfold readPump_frame. rewrite Henv.
  rewrite decide_True by done. rewrite Hmsg. rewrite !logs_app.
  apply elem_of_app. right. apply elem_of_app. left.
  by apply list_elem_of_singleton.
Qed.

(** The pump stays in its loop as long as the reads are frames. *)
Lemma reading_frames (reads : list read) :
  Forall (fun r => r ≠ ReadError) reads → reading reads = true.
Proof.
  induction 1 as [|r reads Hr _ IH]; [done|]. by destruct r.
Qed.

(** C7.  A frame whose envelope has the type tag [chat_message]: the
    body of the read loop sends the Hub exactly one Broadcast event, the
    encoding of the envelope with its tag and room and with the decoded
    user name and text and the reading of the server clock as time
    stamp; the time stamp the client sent has no part in it, so two
    frames that differ in nothing else are forwarded alike. *)
Theorem C7_timestamp_is_server_time message now wrap err msg err' :
  unmarshalEnvelope message = (wrap, err) →
  Type_ wrap = "chat_message" →
  unmarshalMessage (Payload wrap) = (msg, err') →
  events (readPump_frame message now) =
    [Broadcast (default EmptyString (marshalChat "chat_message" (Room wrap)
                              (mkMessage (Username msg) (Text msg) now)))] ∧
  ∀ message2 wrap2 err2 msg2 err2',
    unmarshalEnvelope message2 = (wrap2, err2) →
    Type_ wrap2 = "chat_message" → Room wrap2 = Room wrap →
    unmarshalMessage (Payload wrap2) = (msg2, err2') →
    Username msg2 = Username msg → Text msg2 = Text msg →
    events (readPump_frame message2 now) = events (readPump_frame message now).
Proof.
  intros Henv Htype Hmsg.
  assert (Hev : events (readPump_frame message now) =
    [Broadcast (default EmptyString (marshalChat "chat_message" (Room wrap)
                              (mkMessage (Username msg) (Text msg) now)))]).
  { rewrite (readPump_frame_events _ _ _ _ Henv).
    rewrite decide_True by done. by rewrite Htype, Hmsg. }
  split; [done|].
  intros message2 wrap2 err2 msg2 err2' Henv2 Htype2 Hroom Hmsg2 Hu Ht.
  rewrite Hev, (readPump_frame_events _ _ _ _ Henv2).
  rewrite decide_True by done. rewrite Htype2, Hmsg2. simpl.
  by rewrite Hroom, Hu, Ht.
Qed.

(** C9.  A frame whose envelope decodes with a type tag that is neither
    [chat_message] nor [typing_status]: the body of the read loop does
    nothing at all, the pump is still in its loop, and it goes on with
    the reads that follow as if the frame had not come; a chat message
    that follows is sent to the Hub. *)
Theorem C9_unknown_tag_is_ignored c message now wrap rest :
  unmarshalEnvelope message = (wrap, false) →
  Type_ wrap ≠ "chat_message" → Type_ wrap ≠ "typing_status" →
  readPump_frame message now = [] ∧
  reading (Frame message now :: rest) = reading rest ∧
  readPump c (Frame message now :: rest) = readPump c rest ∧
  ∀ message2 now2 wrap2 err2 msg2 err2',
    unmarshalEnvelope message2 = (wrap2, err2) →
    Type_ wrap2 = "chat_message" →
    unmarshalMessage (Payload wrap2) = (msg2, err2') →
    reading [Frame message now; Frame message2 now2] = true ∧
    events (readPump c [Frame message now; Frame message2 now2]) =
      [Broadcast (default EmptyString (marshalChat "chat_message" (Room wrap2)
                                (mkMessage (Username msg2) (Text msg2) now2)))].
Proof.
  intros Henv Hchat Htyping.
  assert (Hnil : readPump_frame message now = []).
  { unfold readPump_frame. rewrite Henv. simpl.
    rewrite decide_False by done. by rewrite decide_False. }
  split; [done|]. split; [done|]. split; [simpl; by rewrite Hnil|].
  intros message2 now2 wrap2 err2 msg2 err2' Henv2 Htype2 Hmsg2.
  split; [done|]. simpl. rewrite Hnil, app_nil_r. simpl.
  rewrite (readPump_frame_events _ _ _ _ Henv2).
  rewrite decide_True by done. by rewrite Htype2, Hmsg2.
Qed.
End ReadPump.

Section SampleFrames.
#[local] Existing Instance MockDB.
#[local] Existing Instance MiniJson.codec.
Import Frames Sample.

(** C6, on the code.  The payload of [oops] does not decode into a
    [Message]; the read loop logs that and then, instead of dropping the
    frame, stamps the zero [Message] and sends it to the Hub. *)
Theorem C6_undecodable_payload_is_forwarded :
  (unmarshalEnvelope oops).2 = false ∧
  (unmarshalMessage (Payload (unmarshalEnvelope oops).1)).2 = true ∧
  readPump_frame oops T =
    [ALog "Unmarshal chat message error:"; AEvent (Broadcast oops_forwarded)].
Proof. vm_compute. done. Qed.

(** The same for an envelope that fails to decode after its type tag
    was read. *)
Lemma undecodable_envelope_is_forwarded :
  (unmarshalEnvelope bad_room).2 = true ∧
  readPump_frame bad_room T =
    [ALog "unmarshal wrap error:"; AEvent (Broadcast bad_room_forwarded)].
Proof. vm_compute. done. Qed.

(** An envelope that is not JSON at all is logged and dropped. *)
Lemma garbage_is_dropped :
  readPump_frame "garbage" T = [ALog "unmarshal wrap error:"].
Proof. vm_compute. done. Qed.

Lemma hello_payload :
  unmarshalMessage (MiniJson.js "{'username':'alice','text':'hi','timestamp':0}")
  = (mkMessage "alice" "hi" 0, false).
Proof. vm_compute. reflexivity. Qed.

Lemma ping_envelope :
  unmarshalEnvelope ping = (mkEnvelope "ping" "lobby" "{}", false).
Proof. vm_compute. reflexivity. Qed.

Lemma C7_timestamp_is_server_time_witness :
  events (readPump_frame hello T) =
    [Broadcast (default EmptyString (marshalChat "chat_message" "lobby"
                              (mkMessage "alice" "hi" T)))] ∧
  ∀ message2 wrap2 err2 msg2 err2',
    unmarshalEnvelope message2 = (wrap2, err2) →
    Type_ wrap2 = "chat_message" → Room wrap2 = "lobby" →
    unmarshalMessage (Payload wrap2) = (msg2, err2') →
    Username msg2 = "alice" → Text msg2 = "hi" →
    events (readPump_frame message2 T) = events (readPump_frame hello T).
Proof.
  apply (C7_timestamp_is_server_time (json:=MiniJson.codec) hello T
           (mkEnvelope "chat_message" "lobby"
              (MiniJson.js "{'username':'alice','text':'hi','timestamp':0}"))
           false (mkMessage "alice" "hi" 0) false).
  - exact hello_envelope.
  - reflexivity.
  - exact hello_payload.
Defined.

(** The scenario of the specification: the time stamp [0] of the client
    is replaced by the time of the server. *)
Lemma hello_is_stamped :
  readPump_frame hello T = [AEvent (Broadcast hello_forwarded)].
Proof. vm_compute. done. Qed.

Lemma C9_unknown_tag_is_ignored_witness :
  readPump_frame ping T = [] ∧
  reading (Frame ping T :: [Frame hello T]) = reading [Frame hello T] ∧
  readPump alice (Frame ping T :: [Frame hello T]) = readPump alice [Frame hello T] ∧
  ∀ message2 now2 wrap2 err2 msg2 err2',
    unmarshalEnvelope message2 = (wrap2, err2) →
    Type_ wrap2 = "chat_message" →
    unmarshalMessage (Payload wrap2) = (msg2, err2') →
    reading [Frame ping T; Frame message2 now2] = true ∧
    events (readPump alice [Frame ping T; Frame message2 now2]) =
      [Broadcast (default EmptyString (marshalChat "chat_message" (Room wrap2)
                                (mkMessage (Username msg2) (Text msg2) now2)))].
Proof.
  apply (C9_unknown_tag_is_ignored (json:=MiniJson.codec) alice ping T
           (mkEnvelope "ping" "lobby" "{}") [Frame hello T]).
  - exact ping_envelope.
  - discriminate.
  - discriminate.
Defined.

(** A typing status is forwarded as it came. *)
Lemma typing_is_forwarded :
  readPump_frame typing T = [AEvent (Broadcast typing)].
Proof. vm_compute. done. Qed.

(** The scenario of the specification: a ping, then a chat message. *)
Lemma ping_then_hello :
  readPump alice [Frame ping T; Frame hello T] = [AEvent (Broadcast hello_forwarded)].
Proof. vm_compute. done. Qed.
End SampleFrames.

Section Routing.
Context {DB : Type} {repo : Repository DB} {json : Json}.
Implicit Types (w : World (DB:=DB)) (c : Client).

Lemma joined_facts cs w :
  reachable w → Forall (fun c => closed (chan_of w c) = false) cs →
  reachable (joined cs w) ∧ chans (joined cs w) = chans w ∧
  clients (hub (joined cs w)) = list_to_set cs ∪ clients (hub w).
Proof.
  revert w. induction cs as [|c cs IH]; intros w Hreach Hopen.
  - simpl. split; [done|]. split; [done|]. by rewrite union_empty_l_L.
  - apply Forall_cons in Hopen as [Hc Hopen].
    change (joined (c :: cs) w) with (joined cs (world_of (on_register c w))).
    destruct (IH (world_of (on_register c w))) as (IH1 & IH2 & IH3).
    + apply (reachable_step w (AEvent (Register c))); [done..|].
      by apply sys_event, step_register_inv.
    + exact Hopen.
    + split; [exact IH1|]. split; [by rewrite IH2|].
      rewrite IH3. cbn [on_register world_of set_hub hub clients list_to_set].
      apply set_eq. intros x. rewrite !elem_of_union. tauto.
Qed.

(** C10.  A registered client [c] sends a frame whose envelope has the
    type tag [chat_message] or [typing_status] and names a room that is
    not the room of [c].  The read pump forwards it with the room of the
    envelope, the same bytes whoever the sender is; and when the Hub
    handles the forwarded bytes, which decode to that room, with no full
    queue there, each client registered in the named room gets the
    bytes, and the queues of the clients registered in the room of the
    sender, the sender among them, are as before. *)
Theorem C10_fanout_follows_the_envelope_room
    c message now wrap err fwd w env o :
  unmarshalEnvelope message = (wrap, err) →
  Broadcast fwd ∈ events (readPump_frame message now) →
  reachable w → c ∈ clients (hub w) → Room wrap ≠ room c →
  unmarshalEnvelope fwd = (env, false) → Room env = Room wrap →
  (∀ c', c' ∈ receivers w (Room wrap) → full (chan_of w c') = false) →
  step w (Broadcast fwd) o →
  (∀ c', events (readPump c' [Frame message now]) = [Broadcast fwd]) ∧
  ∃ w', o = Next w' ∧
    (∀ c', c' ∈ receivers w (Room wrap) →
           buf (chan_of w' c') = buf (chan_of w c') ++ [fwd]) ∧
    (∀ c', c' ∈ receivers w (room c) → chan_of w' c' = chan_of w c') ∧
    chan_of w' c = chan_of w c.
Proof.
  intros Henv Hfwd HI%reachable_Inv Hc Hroom Henv' Hroom' Hfull Hstep.
  split.
  - intros c'. simpl. rewrite app_nil_r.
    rewrite (readPump_frame_events _ _ _ _ Henv) in *.
    destruct (decide (Type_ wrap = "chat_message")).
    + apply list_elem_of_singleton in Hfwd. by rewrite Hfwd.
    + destruct (decide (Type_ wrap = "typing_status")).
      * apply list_elem_of_singleton in Hfwd. by rewrite Hfwd.
      * by inversion Hfwd.
  - inversion Hstep as [order Hrange Heq]. simpl in Hrange.
    rewrite Henv' in Hrange. simpl in Hrange.
    rewrite <- Hroom' in Hfull.
    destruct (broadcast_delivers w fwd env order HI Henv' Hfull Hrange)
      as (w' & ds & Hb & _ & _ & _ & Hin & Hout).
    rewrite Hroom' in Hin, Hout.
    assert (Hother : ∀ c', c' ∈ receivers w (room c) → chan_of w' c' = chan_of w c').
    { intros c' [Hc1 Hc2]%elem_of_receivers. apply Hout.
      intros [_ Hc3]%elem_of_receivers. congruence. }
    exists w'. simpl. split; [done|]. split.
    + intros c' Hc'. by rewrite (Hin c' Hc').
    + split; [done|]. apply Hother. by apply elem_of_receivers.
Qed.
End Routing.

Section SampleRouting.
#[local] Existing Instance MockDB.
#[local] Existing Instance MiniJson.codec.
Import Frames Sample.

Lemma w0_chan c : chan_of w0 c = newChan.
Proof. unfold chan_of, w0, NewHub. cbn [chans]. by rewrite lookup_empty. Qed.

Lemma w_three_facts :
  reachable w_three ∧ chans w_three = ∅ ∧
  clients (hub w_three) = {[alice; bob; carol]}.
Proof.
  destruct (joined_facts [alice; bob; carol] w0) as (H1 & H2 & H3).
  - apply reachable_new.
  - repeat constructor.
  - unfold w_three. split; [exact H1|]. split; [exact H2|]. rewrite H3.
    unfold w0, NewHub. cbn [hub clients list_to_set].
    apply set_eq. intros c. rewrite !elem_of_union, !elem_of_singleton.
    rewrite elem_of_empty. tauto.
Qed.

Lemma hello_forwarded_envelope :
  unmarshalEnvelope hello_forwarded =
    (mkEnvelope "chat_message" "lobby"
       (MiniJson.js "{'username':'alice','text':'hi','timestamp':1700000000}"),
     false).
Proof. vm_compute. reflexivity. Qed.

Lemma C10_fanout_follows_the_envelope_room_witness :
  (∀ c', events (readPump c' [Frame hello T]) = [Broadcast hello_forwarded]) ∧
  ∃ w', handle (Broadcast hello_forwarded)
          (elements (target (Broadcast hello_forwarded) w_three)) w_three
        = Next w' ∧
    (∀ c', c' ∈ receivers w_three "lobby" →
           buf (chan_of w' c') = buf (chan_of w_three c') ++ [hello_forwarded]) ∧
    (∀ c', c' ∈ receivers w_three "other" → chan_of w' c' = chan_of w_three c') ∧
    chan_of w' carol = chan_of w_three carol.
Proof.
  destruct w_three_facts as (Hreach & Hchans & Hclients).
  apply (C10_fanout_follows_the_envelope_room (repo:=MockDB) (json:=MiniJson.codec)
           carol hello T
           (mkEnvelope "chat_message" "lobby"
              (MiniJson.js "{'username':'alice','text':'hi','timestamp':0}"))
           false hello_forwarded w_three
           (mkEnvelope "chat_message" "lobby"
              (MiniJson.js "{'username':'alice','text':'hi','timestamp':1700000000}"))
           (handle (Broadcast hello_forwarded)
              (elements (target (Broadcast hello_forwarded) w_three)) w_three)).
  - exact hello_envelope.
  - rewrite hello_is_stamped. by apply list_elem_of_singleton.
  - exact Hreach.
  - rewrite Hclients. apply elem_of_union. right. by apply elem_of_singleton.
  - discriminate.
  - exact hello_forwarded_envelope.
  - reflexivity.
  - intros c' _. unfold chan_of. rewrite Hchans, lookup_empty. reflexivity.
  - apply step_handle. unfold range_of. reflexivity.
Defined.
End SampleRouting.

Section Join.
Context {DB : Type} {repo : Repository DB} {json : Json}.
Implicit Types (w : World (DB:=DB)) (c : Client).


Lemma wrote_persist env w c :
  wrote c (trace (persist env w)) = wrote c (trace w).
Proof.
  destruct (persist_trace env w) as (t & -> & Ht).
  rewrite wrote_app. induction Ht as [|e t He _ IH]; simpl.
  - by rewrite app_nil_r.
  - unfold wrote in *; simpl. destruct e; done.
Qed.









End Join.

Section Fifo.
Context {DB : Type} {repo : Repository DB} {json : Json}.
Implicit Types (w : World (DB:=DB)) (c : Client).

Lemma handle_fifo c ev order w w' :
  handle ev order w = Next w' → fifo c w → fifo c w'.
Proof.
  intros Hh (pending & Hp1 & Hp2). destruct ev as [c0|c0|message]; simpl in Hh.
  - injection Hh as <-. by exists pending.
  - unfold on_unregister in Hh. destruct (decide (c0 ∈ clients (hub w)));
      [|injection Hh as <-; by exists pending].
    simpl in Hh. destruct (closed _); [done|]. injection Hh as <-.
    exists pending. simpl. rewrite sent_to_app, wrote_app, !app_nil_r.
    split; [done|]. intros Hc. rewrite chan_of_emit, chan_of_set_chan.
    destruct (decide (c0 = c)) as [->|]; simpl; by apply Hp2.
  - unfold on_broadcast in Hh. destruct (unmarshalEnvelope message) as [env []].
    + injection Hh as <-. exists pending. simpl.
      rewrite sent_to_app, wrote_app, !app_nil_r. done.
    + destruct (fanout_effect c order message (persist env w))
        as (_ & _ & Hst & Hw & _ & n & Hs & Hb & _).
      rewrite Hh in Hst, Hw, Hs, Hb. simpl in Hst, Hw, Hs, Hb.
      destruct (persist_same env w) as (_ & _ & Hps).
      rewrite Hps in Hst. rewrite wrote_persist in Hw.
      rewrite sent_to_persist in Hs. rewrite chan_of_persist in Hb.
      exists (pending ++ repeat message n). rewrite Hs, Hw, Hp1, Hst, Hb.
      rewrite <- app_assoc. split; [done|]. intros Hc. by rewrite Hp2.
Qed.

Lemma sys_step_fifo c w a w' :
  sys_step w a (Next w') → fifo c w → fifo c w'.
Proof.
  intros Hs Hf.
  inversion Hs as [line|code|p c0|c0|c0 m Hcl Hfull| |c0 fails w1 Hturn|ev o Hstep];
    subst; try done.
  - destruct Hf as (pending & Hp1 & Hp2). exists pending. simpl.
    by rewrite sent_to_app, wrote_app, !app_nil_r.
  - destruct Hf as (pending & Hp1 & Hp2). unfold enqueue.
    destruct (decide (c0 = c)) as [->|Hne].
    + exists (pending ++ [m]). simpl. rewrite sent_to_app, wrote_app. simpl.
      rewrite decide_True by done. rewrite Hp1, app_nil_r, <- app_assoc.
      split; [done|]. intros Hc. rewrite chan_of_emit, chan_of_set_chan.
      rewrite decide_True by done. simpl. by rewrite Hp2.
    + exists pending. simpl. rewrite sent_to_app, wrote_app. simpl.
      rewrite decide_False by done. rewrite !app_nil_r. split; [done|].
      intros Hc. rewrite chan_of_emit, chan_of_set_chan.
      rewrite decide_False by done. by apply Hp2.
  - destruct Hf as (pending & Hp1 & Hp2). unfold writePump_turn in Hturn.
    destruct (decide (c0 ∈ stopped w)) as [|Hrun]; [done|].
    destruct (buf (chan_of w c0)) as [|m rest] eqn:Hbuf.
    + destruct (closed (chan_of w c0)); [|done]. injection Hturn as <-.
      exists pending. simpl. rewrite sent_to_app, wrote_app, !app_nil_r.
      split; [done|]. intros Hc. apply Hp2. intros Hc'. apply Hc.
      by apply elem_of_union_r.
    + destruct fails; injection Hturn as <-.
      * exists pending. simpl. rewrite sent_to_app, wrote_app, !app_nil_r.
        split; [done|]. intros Hc.
        rewrite chan_of_stop, chan_of_emit, chan_of_set_chan.
        destruct (decide (c0 = c)) as [->|Hne].
        -- exfalso. apply Hc. simpl. apply elem_of_union_l. by apply elem_of_singleton.
        -- apply Hp2. intros Hc'. apply Hc. simpl. by apply elem_of_union_r.
      * destruct (decide (c0 = c)) as [->|Hne].
        -- exists rest. simpl. rewrite sent_to_app, wrote_app. simpl.
           rewrite decide_True by done.
           rewrite app_nil_r, <- app_assoc. simpl.
           rewrite Hp1, (Hp2 Hrun), Hbuf. split; [done|]. intros _.
           rewrite chan_of_emit, chan_of_set_chan. by rewrite decide_True.
        -- exists pending. simpl. rewrite sent_to_app, wrote_app. simpl.
           rewrite decide_False by done. rewrite !app_nil_r. split; [done|].
           intros Hc. rewrite chan_of_emit, chan_of_set_chan.
           rewrite decide_False by done. by apply Hp2.
  - inversion Hstep as [order Hrange Heq].
    assert (Heq' : handle ev order w = Next w') by done.
    by apply (handle_fifo c _ _ _ _ Heq').
Qed.



Lemma replay_shape c msgs :
  Forall (own c) (replay c msgs) ∧ events (replay c msgs) = [].
Proof.
  induction msgs as [|msg msgs [IH1 IH2]]; [done|]. simpl.
  destruct (marshalChat _ _ _); simpl; (split; [by constructor|done]).
Qed.





End Fifo.

Section SampleJoining.
#[local] Existing Instance MockDB.
#[local] Existing Instance MiniJson.codec.
Import Frames Sample.


Lemma dave_is_fresh : fresh w_alice dave.
Proof.
  split.
  - unfold w_alice, set_hub. cbn [hub clients].
    intros Hin%elem_of_singleton. discriminate.
  - unfold w_alice, set_hub, w0, NewHub. cbn [chans]. apply lookup_empty.
  - unfold w_alice, set_hub, w0, NewHub. cbn [stopped]. apply not_elem_of_empty.
  - reflexivity.
  - reflexivity.
Qed.




(** The scenario of the specification: the two messages of the history,
    then the live one. *)
Lemma dave_queue :
  sent_to dave (trace w_joined) = (sends dave_joins).*2 ++ [hello_forwarded].
Proof. vm_compute. reflexivity. Qed.

Lemma C4_broadcast_reaches_exactly_its_room_witness :
  ∃ w' ds,
    handle (Broadcast hello_forwarded)
      (elements (target (Broadcast hello_forwarded) w_three)) w_three = Next w' ∧
    deliveries (trace w') = deliveries (trace w_three) ++ ds ∧
    length ds = size (receivers w_three "lobby") ∧
    ds ≡ₚ (fun c => (c, hello_forwarded)) <$> elements (receivers w_three "lobby") ∧
    (∀ c, c ∈ receivers w_three "lobby" →
          buf (chan_of w' c) = buf (chan_of w_three c) ++ [hello_forwarded]) ∧
    (∀ c, c ∉ receivers w_three "lobby" → chan_of w' c = chan_of w_three c).
Proof.
  destruct w_three_facts as (Hreach & Hchans & Hclients).
  apply (C4_broadcast_reaches_exactly_its_room (repo:=MockDB) (json:=MiniJson.codec)
           w_three hello_forwarded
           (mkEnvelope "chat_message" "lobby"
              (MiniJson.js "{'username':'alice','text':'hi','timestamp':1700000000}"))
           "lobby"
           (handle (Broadcast hello_forwarded)
              (elements (target (Broadcast hello_forwarded) w_three)) w_three)).
  - exact Hreach.
  - exact hello_forwarded_envelope.
  - reflexivity.
  - reflexivity.
  - intros c _. unfold chan_of. rewrite Hchans, lookup_empty. reflexivity.
  - apply step_handle. unfold range_of. reflexivity.
Defined.

(** The room of the sample has two registered clients. *)
Lemma lobby_has_two : size (receivers w_three "lobby") = 2%nat.
Proof. vm_compute. reflexivity. Qed.
End SampleJoining.

Section SamplePersistence.
Import Frames Sample.

(** With a repository that fails, [alice] still gets the message. *)
Lemma failing_repository_still_delivers :
  let w := set_hub (mkHub {[alice]} {["lobby" := {[alice]}]}) (NewHub ()) in
  trace (world_of (on_broadcast (repo:=FailingDB) (json:=MiniJson.codec)
                     [alice] hello_forwarded w))
  = [Saved (mkMessage "alice" "hi" T) true; Logged "SaveMessage error:";
     Sent alice hello_forwarded].
Proof. vm_compute. reflexivity. Qed.
End SamplePersistence.

Section LegacyFacts.
Context {DB : Type}.
Variable SaveMessage : Legacy.Message → DB → DB * bool.
Variable unmarshalMessage : string → Legacy.Message * bool.
Implicit Types (w : World (DB:=DB)) (c : Client).

Lemma range_of_singleton c (order : list Client) :
  range_of {[c]} order → order = [c].
Proof.
  unfold range_of. rewrite elements_singleton.
  intros Hp. by apply Permutation_singleton_r.
Qed.

(** X19.  The first revision evicts inside the range: a registered client
    with a full queue, alone in its room, is closed and deleted from the
    registry by the broadcast itself, stays in the room index, and makes
    the next broadcast to the room panic. *)
Lemma Legacy_eviction_then_panic w message c :
  members (hub w) (Legacy.Room (unmarshalMessage message).1) = {[c]} →
  c ∈ clients (hub w) →
  closed (chan_of w c) = false → full (chan_of w c) = true →
  ∀ o, Legacy.step SaveMessage unmarshalMessage w (Broadcast message) o →
    ∃ w', o = Next w' ∧
      (c ∉ clients (hub w')) ∧ rooms (hub w') = rooms (hub w) ∧
      closed (chan_of w' c) = true ∧
      ∀ o', Legacy.step SaveMessage unmarshalMessage w' (Broadcast message) o' →
            ∃ w'', o' = Panic w'' "send on closed channel".
Proof.
  intros Hmem Hreg Hcl Hfull o Hstep.
  inversion Hstep as [order Hrange Heq]. simpl in Hrange.
  rewrite Hmem in Hrange. apply range_of_singleton in Hrange as ->.
  cbn [Legacy.handle].
  set (w1 := set_db (SaveMessage (unmarshalMessage message).1 (db w)).1 w).
  set (w2 := set_hub (mkHub (clients (hub w1) ∖ {[c]}) (rooms (hub w1)))
               (emit (Closed c)
                  (set_chan c (mkChan (buf (chan_of w1 c)) true) w1))).
  assert (Hch1 : chan_of w1 c = chan_of w c) by reflexivity.
  assert (H1 : Legacy.on_broadcast SaveMessage unmarshalMessage [c] message w
               = Next w2).
  { unfold Legacy.on_broadcast. cbn [Legacy.fanout]. fold w1.
    by rewrite Hch1, Hcl, Hfull. }
  assert (Hcl2 : closed (chan_of w2 c) = true).
  { unfold w2. change (chan_of (set_hub ?h ?w) c) with (chan_of w c).
    rewrite chan_of_emit, chan_of_set_chan. by rewrite decide_True. }
  exists w2. split; [done|].
  split; [apply not_elem_of_difference; right; by apply elem_of_singleton|].
  split; [done|]. split; [done|].
  intros o' Hstep'. inversion Hstep' as [order' Hrange' Heq'].
  cbn [Legacy.target] in Hrange'.
  change (members (hub w2)) with (members (hub w)) in Hrange'.
  rewrite Hmem in Hrange'. apply range_of_singleton in Hrange' as ->.
  cbn [Legacy.handle]. unfold Legacy.on_broadcast. cbn [Legacy.fanout].
  match goal with
  | |- context [closed (chan_of ?w3 c)] =>
      change (chan_of w3 c) with (chan_of w2 c)
  end.
  rewrite Hcl2. by eexists.
Qed.
End LegacyFacts.

(** * More of the Hub *)

Section HubSafety.
Context {DB : Type} {repo : Repository DB} {json : Json}.
Implicit Types (w : World (DB:=DB)) (c : Client).

Lemma fanout_ends order message w :
  registered_open w →
  match fanout order message w with
  | Next _ => True
  | Blocked w' c =>
      c ∈ clients (hub w') ∧ full (chan_of w' c) = true ∧
      closed (chan_of w' c) = false
  | Panic _ _ => False
  end.
Proof.
  revert w. induction order as [|client rest IH]; intros w Hopen; [done|].
  simpl. destruct (decide (client ∈ clients (hub w))) as [Hin|]; [|by apply IH].
  rewrite (Hopen client Hin).
  destruct (full (chan_of w client)) eqn:Hfull.
  - split; [done|]. split; [done|]. by apply Hopen.
  - apply IH. intros c Hc. rewrite chan_of_emit, chan_of_set_chan.
    destruct (decide (client = c)); [done|]. by apply Hopen.
Qed.

Lemma registered_open_persist env w :
  registered_open w → registered_open (persist env w).
Proof.
  intros Hopen c. destruct (persist_same env w) as (-> & _ & _).
  rewrite chan_of_persist. apply Hopen.
Qed.

(** X1.  From a reachable state no event makes [Hub.Run] panic: it
    closes no closed channel and sends on no closed channel.  An
    iteration either comes back to the [select], or it is a broadcast
    that stays in the send on [h.unregister] for a registered client
    whose queue is full. *)
Theorem Hub_never_panics w :
  reachable w →
  ∀ ev o, step w ev o →
    (∃ w', o = Next w') ∨
    (∃ message w' c, ev = Broadcast message ∧ o = Blocked w' c ∧
       c ∈ clients (hub w') ∧ full (chan_of w' c) = true).
Proof.
  intros [Hr Hi Ho]%reachable_Inv ev o Hstep.
  inversion Hstep as [order Hrange Heq]. destruct ev as [c|c|message]; simpl.
  - left. by eexists.
  - left. unfold on_unregister.
    destruct (decide (c ∈ clients (hub w))) as [Hin|]; [|by eexists].
    simpl. change (chan_of (set_hub _ w) c) with (chan_of w c).
    rewrite (Ho c Hin). by eexists.
  - unfold on_broadcast. destruct (unmarshalEnvelope message) as [env []].
    + left. by eexists.
    + pose proof (fanout_ends order message (persist env w)
                    (registered_open_persist env w Ho)) as Hends.
      destruct (fanout order message (persist env w)) as [w'|w' c|w' why].
      * left. by eexists.
      * right. exists message, w', c. tauto.
      * done.
Qed.

Lemma fanout_bounded order message w :
  (∀ c, (length (buf (chan_of w c)) ≤ sendCap)%nat) →
  ∀ c, (length (buf (chan_of (world_of (fanout order message w)) c)) ≤ sendCap)%nat.
Proof.
  revert w. induction order as [|client rest IH]; intros w Hb; [done|].
  simpl. destruct (decide (client ∈ clients (hub w))); [|by apply IH].
  destruct (closed (chan_of w client)); [done|].
  destruct (full (chan_of w client)) eqn:Hfull; [done|].
  apply IH. intros c. rewrite chan_of_emit, chan_of_set_chan.
  destruct (decide (client = c)) as [->|]; [|apply Hb]. cbn [buf].
  apply full_false in Hfull. rewrite length_app. simpl. lia.
Qed.

Lemma sys_step_bounded w a w' :
  sys_step w a (Next w') →
  (∀ c, (length (buf (chan_of w c)) ≤ sendCap)%nat) →
  ∀ c, (length (buf (chan_of w' c)) ≤ sendCap)%nat.
Proof.
  intros Hs Hb.
  inversion Hs as [line|code|p c0|c0|c0 m Hcl Hfull| |c0 fails w1 Hturn|ev o Hstep];
    subst; try done.
  - intros c. unfold enqueue. rewrite chan_of_emit, chan_of_set_chan.
    destruct (decide (c0 = c)) as [->|]; [|apply Hb]. cbn [buf].
    apply full_false in Hfull. rewrite length_app. simpl. lia.
  - intros c. unfold writePump_turn in Hturn.
    destruct (decide (c0 ∈ stopped w)); [done|].
    destruct (buf (chan_of w c0)) as [|m rest] eqn:Hbuf.
    + destruct (closed (chan_of w c0)); [|done]. injection Hturn as <-.
      apply Hb.
    + pose proof (Hb c0) as Hc0. rewrite Hbuf in Hc0. simpl in Hc0.
      destruct fails; injection Hturn as <-;
        rewrite ?chan_of_stop, chan_of_emit, chan_of_set_chan;
        (destruct (decide (c0 = c)) as [->|]; [cbn [buf]; lia|apply Hb]).
  - inversion Hstep as [order Hrange Heq]. destruct ev as [c0|c0|message];
      simpl in Heq.
    + injection Heq as <-. intros c. apply Hb.
    + unfold on_unregister in Heq.
      destruct (decide (c0 ∈ clients (hub w)));
        [|injection Heq as <-; intros c; apply Hb].
      simpl in Heq. destruct (closed _); [done|]. injection Heq as <-.
      intros c. rewrite chan_of_emit, chan_of_set_chan.
      destruct (decide (c0 = c)) as [->|]; [|apply Hb]. cbn [buf]. apply Hb.
    + unfold on_broadcast in Heq.
      destruct (unmarshalEnvelope message) as [env []].
      * injection Heq as <-. intros c. apply Hb.
      * intros c.
        pose proof (fanout_bounded order message (persist env w)) as Hf.
        rewrite Heq in Hf. apply Hf. intros c1.
        rewrite chan_of_persist. apply Hb.
Qed.

(** X2.  In every reachable state every outbound queue holds at most
    256 messages: each send on a [send] channel, the blocking one of
    [serveWs] as well as the one in the [select] of the broadcast, goes
    through only while there is room. *)
Theorem queues_stay_bounded w c :
  reachable w → (length (buf (chan_of w c)) ≤ sendCap)%nat.
Proof.
  intros Hreach. revert c.
  induction Hreach as [d|w a w' _ IH _ Hs].
  - intros c. unfold chan_of, NewHub. cbn [chans]. rewrite lookup_empty.
    simpl. lia.
  - by apply (sys_step_bounded w a w').
Qed.
End HubSafety.

Section HubMaps.
Context {DB : Type} {repo : Repository DB} {json : Json}.
Implicit Types (w : World (DB:=DB)) (c : Client).

Lemma closes_snoc c t e :
  closes c (t ++ [e]) = (closes c t + if decide (e = Closed c) then 1 else 0)%nat.
Proof.
  rewrite closes_app. f_equal. unfold closes.
  destruct (decide (e = Closed c)) as [->|Hne].
  - by rewrite filter_cons_True.
  - by rewrite filter_cons_False.
Qed.

Lemma closes_fanout c order message w :
  closes c (trace (world_of (fanout order message w))) = closes c (trace w).
Proof.
  destruct (fanout_trace order message w) as (t & -> & Ht).
  rewrite closes_app.
  assert (Hz : closes c t = 0%nat).
  { induction Ht as [|e t [c0 ->] _ IH]; [done|].
    unfold closes in *. by rewrite filter_cons_False. }
  rewrite Hz. lia.
Qed.

Lemma closes_persist c env w :
  closes c (trace (persist env w)) = closes c (trace w).
Proof.
  destruct (persist_trace env w) as (t & -> & Ht).
  rewrite closes_app.
  assert (Hz : closes c t = 0%nat).
  { induction Ht as [|e t He _ IH]; [done|].
    unfold closes in *. rewrite filter_cons_False; [exact IH|].
    intros ->. done. }
  rewrite Hz. lia.
Qed.

Lemma sys_step_closes w a w' c :
  Inv w → admissible w a → sys_step w a (Next w') →
  closes c (trace w) = (if closed (chan_of w c) then 1 else 0)%nat →
  closes c (trace w') = (if closed (chan_of w' c) then 1 else 0)%nat.
Proof.
  intros [Hr Hi Ho] Hadm Hs Hc.
  inversion Hs as [line|code|p c0|c0|c0 m Hcl Hfull| |c0 fails w1 Hturn|ev o Hstep];
    subst; try done.
  - simpl. rewrite closes_snoc, decide_False by done.
    rewrite chan_of_emit. lia.
  - unfold enqueue. simpl. rewrite closes_snoc, decide_False by done.
    rewrite chan_of_emit, chan_of_set_chan.
    destruct (decide (c0 = c)) as [->|]; simpl; rewrite Hc; lia.
  - destruct (writePump_turn_chan _ _ _ _ c Hturn) as [_ ->].
    rewrite <- Hc. unfold writePump_turn in Hturn.
    destruct (decide (c0 ∈ stopped w)); [done|].
    destruct (buf (chan_of w c0)) as [|m rest].
    + destruct (closed (chan_of w c0)); [|done]. injection Hturn as <-.
      simpl. rewrite closes_snoc, decide_False by done. lia.
    + destruct fails; injection Hturn as <-; simpl;
        rewrite closes_snoc, decide_False by done; lia.
  - inversion Hstep as [order Hrange Heq]. destruct ev as [c0|c0|message];
      simpl in Heq.
    + injection Heq as <-. exact Hc.
    + unfold on_unregister in Heq.
      destruct (decide (c0 ∈ clients (hub w))) as [Hin|];
        [|injection Heq as <-; exact Hc].
      simpl in Heq. change (chan_of (set_hub _ w) c0) with (chan_of w c0) in Heq.
      rewrite (Ho c0 Hin) in Heq. injection Heq as <-. simpl.
      rewrite closes_snoc, chan_of_emit, chan_of_set_chan.
      destruct (decide (c0 = c)) as [->|Hne].
      * rewrite decide_True by done. simpl. rewrite Hc, (Ho c Hin). lia.
      * rewrite decide_False by (by intros [= ->]).
        change (chan_of (set_hub _ w) c) with (chan_of w c). rewrite Hc. lia.
    + unfold on_broadcast in Heq.
      destruct (unmarshalEnvelope message) as [env []].
      * injection Heq as <-. simpl.
        rewrite closes_snoc, decide_False by done. rewrite chan_of_emit. lia.
      * assert (Hw' : w' = world_of (fanout order message (persist env w)))
          by (by rewrite Heq).
        rewrite Hw', closes_fanout, closes_persist.
        destruct (fanout_effect c order message (persist env w))
          as (_ & _ & _ & _ & -> & _).
        by rewrite chan_of_persist.
Qed.

(** X3.  In every reachable state the [send] channel of a client has
    been closed once if it is closed and never if it is open: no
    execution closes a queue twice, and a queue that is open has never
    been closed. *)
Theorem queue_closed_at_most_once w c :
  reachable w →
  closes c (trace w) = (if closed (chan_of w c) then 1 else 0)%nat.
Proof.
  intros Hreach. induction Hreach as [d|w a w' Hreach IH Hadm Hs].
  - unfold chan_of, NewHub. cbn [chans trace]. by rewrite lookup_empty.
  - by apply (sys_step_closes w a w' c (reachable_Inv _ Hreach)).
Qed.

Lemma sys_step_hub w a w' :
  sys_step w a (Next w') →
  hub w' = hub w ∨
  (∃ c, a = AEvent (Register c) ∧
        clients (hub w') = {[c]} ∪ clients (hub w) ∧
        ∀ r, members (hub w') r =
               if decide (room c = r) then {[c]} ∪ members (hub w) r
               else members (hub w) r) ∨
  (∃ c, a = AEvent (Unregister c) ∧ c ∈ clients (hub w) ∧
        clients (hub w') = clients (hub w) ∖ {[c]} ∧
        rooms (hub w') = rooms (hub w)).
Proof.
  intros Hs.
  inversion Hs as [line|code|p c0|c0|c0 m Hcl Hfull| |c0 fails w1 Hturn|ev o Hstep];
    subst; try by left.
  - left. by destruct (writePump_turn_chan _ _ _ _ c0 Hturn) as [-> _].
  - inversion Hstep as [order Hrange Heq]. destruct ev as [c0|c0|message];
      simpl in Heq.
    + injection Heq as <-. right. left. exists c0. split; [done|].
      split; [done|]. intros r. apply members_register.
    + unfold on_unregister in Heq.
      destruct (decide (c0 ∈ clients (hub w))) as [Hin|];
        [|injection Heq as <-; by left].
      simpl in Heq. destruct (closed _); [done|]. injection Heq as <-.
      right. right. by exists c0.
    + left. unfold on_broadcast in Heq.
      destruct (unmarshalEnvelope message) as [env []].
      * by injection Heq as <-.
      * destruct (fanout_effect (mkClient 1 EmptyString EmptyString) order
                    message (persist env w)) as (Hh & _).
        rewrite Heq in Hh. simpl in Hh. rewrite Hh.
        by destruct (persist_same env w) as (-> & _).
Qed.

(** X4.  The two maps of the Hub change only when the Hub handles a
    Register or an Unregister event: no broadcast, no send on a queue,
    no turn of a write pump and no log line changes the registry or the
    room index. *)
Theorem only_register_and_unregister_change_the_maps a :
  (∀ c, a ≠ AEvent (Register c)) → (∀ c, a ≠ AEvent (Unregister c)) →
  ∀ w w', sys_step w a (Next w') → hub w' = hub w.
Proof.
  intros Hnr Hnu w w' Hs.
  destruct (sys_step_hub w a w' Hs) as [Heq|[(c & Ha & _)|(c & Ha & _)]];
    [done|by destruct (Hnr c)|by destruct (Hnu c)].
Qed.

(** X5.  The room index only grows: along every execution, whoever is
    in the set of a room stays there, also after its Unregister. *)
Theorem room_index_only_grows w r c :
  c ∈ members (hub w) r →
  ∀ acts w', exec w acts (Next w') → c ∈ members (hub w') r.
Proof.
  intros Hc acts w' Hexec. revert w Hc Hexec.
  induction acts as [|a acts IH]; intros w Hc Hexec.
  - by apply exec_nil_inv in Hexec as [= <-].
  - apply exec_cons_inv in Hexec as [(w1 & Hs & Hexec)|[_ Hne]];
      [|by destruct (Hne w')].
    apply (IH w1); [|exact Hexec].
    destruct (sys_step_hub w a w1 Hs)
      as [->|[(c0 & _ & _ & Hm)|(c0 & _ & _ & _ & Hrooms)]]; [done| |].
    + rewrite Hm. destruct (decide (room c0 = r)); [|done].
      by apply elem_of_union_r.
    + unfold members. by rewrite Hrooms.
Qed.

(** X6.  A Register event for a client that is in the registry of a
    reachable state changes nothing at all. *)
Theorem register_twice_changes_nothing w c :
  reachable w → c ∈ clients (hub w) →
  ∀ o, step w (Register c) o → o = Next w.
Proof.
  intros [Hr Hi Ho]%reachable_Inv Hin o ->%step_register_inv.
  unfold on_register. f_equal. destruct w as [[cl rm] ch d st tr].
  unfold set_hub. simpl in *. f_equal. f_equal.
  - apply set_eq. intros x. rewrite elem_of_union, elem_of_singleton.
    split; [intros [->|?]; done|by right].
  - specialize (Hr c Hin). unfold members in *. simpl in *.
    destruct (rm !! room c) as [s|] eqn:Hs; simpl in *; [|by inversion Hr].
    apply insert_id. rewrite Hs. f_equal. apply set_eq. intros x.
    rewrite elem_of_union, elem_of_singleton.
    split; [by right|intros [->|?]; done].
Qed.

(** X7.  A broadcast to a room in which no client is registered, be the
    room unknown to the index or left with departed clients only, always
    runs to the end, delivers nothing and changes no queue. *)
Theorem broadcast_to_an_empty_room w message env :
  reachable w →
  unmarshalEnvelope message = (env, false) →
  receivers w (Room env) = ∅ →
  ∀ o, step w (Broadcast message) o →
    ∃ w', o = Next w' ∧ hub w' = hub w ∧
          deliveries (trace w') = deliveries (trace w) ∧
          ∀ c, chan_of w' c = chan_of w c.
Proof.
  intros HI%reachable_Inv Henv Hempty o Hstep.
  inversion Hstep as [order Hrange Heq]. simpl in Hrange.
  rewrite Henv in Hrange. simpl in Hrange.
  destruct (broadcast_delivers w message env order HI Henv)
    as (w' & ds & Hb & Hhub & Hdel & Hperm & _ & Hout); [|done|].
  { intros c. rewrite Hempty. by intros ?%elem_of_empty. }
  rewrite Hempty, elements_empty in Hperm. simpl in Hperm.
  apply Permutation_nil_r in Hperm as ->. rewrite app_nil_r in Hdel.
  exists w'. simpl. split; [done|]. split; [done|]. split; [done|].
  intros c. apply Hout. rewrite Hempty. apply not_elem_of_empty.
Qed.
End HubMaps.

Section Serving.
Context {DB : Type} {repo : Repository DB} {json : Json}.
Implicit Types (w : World (DB:=DB)) (c : Client).

Lemma replay_sends c msgs :
  sends (replay c msgs) =
    (fun m => (c, m)) <$> omap (marshalChat "chat_message" (room c)) msgs.
Proof.
  induction msgs as [|msg msgs IH]; [done|]. simpl.
  destruct (marshalChat "chat_message" (room c) msg); simpl; by rewrite IH.
Qed.

(** X8.  [serveWs] sends a Register event, one, for a client with the
    room and the user name of the request, exactly when both parameters
    are there and the upgrade succeeds.  Otherwise it sends nothing to
    the Hub and nothing to any queue, and whatever state it runs in
    keeps its two maps, its queues and its deliveries. *)
Theorem serveWs_registers_complete_requests_only a room username upgraded d :
  events (serveWs a room username upgraded d) =
    (if decide (room ≠ EmptyString ∧ username ≠ EmptyString ∧ upgraded = true)
     then [Register (mkClient a room username)] else []) ∧
  (¬ (room ≠ EmptyString ∧ username ≠ EmptyString ∧ upgraded = true) →
   sends (serveWs a room username upgraded d) = [] ∧
   ∀ w o, exec w (serveWs a room username upgraded d) o →
          ∃ w', o = Next w' ∧ view w' = view w).
Proof.
  unfold serveWs.
  destruct (decide (room = EmptyString ∨ username = EmptyString)) as [Hbad|Hok].
  - rewrite decide_False by (intros (? & ? & _); by destruct Hbad).
    split; [done|]. intros _. split; [done|]. intros w o Hexec.
    apply exec_cons_inv in Hexec as [(w1 & Hs & Hexec)|[Hs Hne]].
    + inversion Hs; subst. apply exec_nil_inv in Hexec as ->. by exists w1.
    + inversion Hs; subst. by destruct (Hne w).
  - destruct upgraded; simpl.
    + rewrite decide_True
        by (split; [|split]; [intros ->; apply Hok; by left
                             |intros ->; apply Hok; by right|done]).
      split.
      * rewrite events_app.
        destruct (GetLastMessages room 10 d) as [msgs []]; simpl; [done|].
        by rewrite (proj2 (replay_shape (mkClient a room username) msgs)).
      * intros Hn. exfalso. apply Hn.
        split; [|split]; [intros ->; apply Hok; by left
                         |intros ->; apply Hok; by right|done].
    + rewrite decide_False by (by intros (_ & _ & ?)).
      split; [done|]. intros _. split; [done|]. intros w o Hexec.
      apply exec_cons_inv in Hexec as [(w1 & Hs & Hexec)|[Hs Hne]].
      * inversion Hs; subst. apply exec_nil_inv in Hexec as ->.
        eexists. split; [done|]. unfold view. simpl.
        by rewrite deliveries_app, app_nil_r.
      * inversion Hs; subst. by destruct (Hne (emit (Logged "upgrade error") w)).
Qed.

End Serving.

Section Reading.
Context {json : Json}.
Implicit Types (c : Client).

Lemma readPump_frame_broadcasts message now :
  ∃ bs, events (readPump_frame message now) = Broadcast <$> bs ∧
        (length bs ≤ 1)%nat.
Proof.
  destruct (unmarshalEnvelope message) as [wrap err] eqn:Henv.
  rewrite (readPump_frame_events _ _ _ _ Henv).
  destruct (decide (Type_ wrap = "chat_message")).
  - eexists [_]. split; [reflexivity|done].
  - destruct (decide (Type_ wrap = "typing_status")).
    + eexists [_]. split; [reflexivity|done].
    + exists []. split; [done|]. simpl. lia.
Qed.

(** X10.  Whatever the transport delivers, the read pump of a client
    sends the Hub Broadcast events only, at most one for each frame,
    followed, when a read fails, by one Unregister event for the client
    itself, after which it sends nothing more.  It never sends a
    Register event and never unregisters another client. *)
Theorem readPump_sends_broadcasts_then_unregisters c reads :
  ∃ bs,
    events (readPump c reads) =
      (Broadcast <$> bs) ++ (if reading reads then [] else [Unregister c]) ∧
    (length bs ≤ length reads)%nat.
Proof.
  induction reads as [|[message now|] reads (bs & Hbs & Hlen)].
  - exists []. split; [done|]. simpl. lia.
  - destruct (readPump_frame_broadcasts message now) as (b1 & Hb1 & Hl1).
    exists (b1 ++ bs). simpl. rewrite events_app, Hb1, Hbs.
    rewrite fmap_app, <- app_assoc. split; [done|].
    rewrite length_app. lia.
  - exists []. split; [done|]. simpl. lia.
Qed.

(** X11.  A read error ends the read pump: after the frames read before
    it, the pump sends its Unregister event, closes its transport, and
    does not look at what the transport would deliver next. *)
Theorem readPump_stops_at_the_first_read_error c frames rest :
  Forall (fun r => r ≠ ReadError) frames →
  readPump c (frames ++ ReadError :: rest) =
    readPump c frames ++ [AEvent (Unregister c); AConnClose c] ∧
  reading (frames ++ ReadError :: rest) = false.
Proof.
  induction 1 as [|r frames Hr _ [IH1 IH2]]; [done|].
  destruct r as [message now|]; [|done]. simpl.
  rewrite IH1, IH2. by rewrite <- app_assoc.
Qed.

(** X12.  A frame whose envelope has the type tag [typing_status] is
    sent to the Hub as one Broadcast event: the encoding of the envelope
    with its tag and room and the decoded typing status, the same at
    whatever time the frame is read. *)
Theorem typing_status_is_forwarded_as_decoded message now wrap err ts err' :
  unmarshalEnvelope message = (wrap, err) →
  Type_ wrap = "typing_status" →
  unmarshalTypingStatus (Payload wrap) = (ts, err') →
  events (readPump_frame message now) =
    [Broadcast (default EmptyString
                  (marshalTyping "typing_status" (Room wrap) ts))] ∧
  ∀ now', events (readPump_frame message now')
          = events (readPump_frame message now).
Proof.
  intros Henv Htype Hts.
  assert (Hev : ∀ t, events (readPump_frame message t) =
    [Broadcast (default EmptyString
                  (marshalTyping "typing_status" (Room wrap) ts))]).
  { intros t. rewrite (readPump_frame_events _ _ _ _ Henv).
    rewrite decide_False by (rewrite Htype; discriminate).
    rewrite decide_True by done. by rewrite Htype, Hts. }
  split; [apply Hev|]. intros now'. by rewrite !Hev.
Qed.
End Reading.

Section Pumps.
Context {DB : Type} {repo : Repository DB} {json : Json}.
Implicit Types (w : World (DB:=DB)) (c : Client).

Lemma NewHub_fifo (d : DB) c : fifo c (NewHub d).
Proof. exists []. split; [done|]. intros _. done. Qed.

Lemma reachable_fifo w c : reachable w → fifo c w.
Proof.
  induction 1 as [d|w a w' _ IH _ Hs]; [apply NewHub_fifo|].
  by apply (sys_step_fifo c w a).
Qed.

(** X13.  In every state the program can reach, what the write pump
    of a client has written to its transport is a prefix of what was
    put into the queue of the client, in the same order; and as long as
    the pump has not returned, the messages not yet written are exactly
    the ones waiting in the queue.  Nothing is written twice, out of
    order, or without having been queued. *)
Theorem writePump_writes_the_queue_in_order w c :
  reachable w →
  wrote c (trace w) `prefix_of` sent_to c (trace w) ∧
  (c ∉ stopped w →
   sent_to c (trace w) = wrote c (trace w) ++ buf (chan_of w c)).
Proof.
  intros Hreach. destruct (reachable_fifo w c Hreach) as (pending & Hp1 & Hp2).
  split; [by exists pending|]. intros Hs. by rewrite <- (Hp2 Hs).
Qed.

Lemma run_app l1 l2 w :
  run (l1 ++ l2) w =
    match run l1 w with
    | Some (Next w1) => run l2 w1
    | r => r
    end.
Proof.
  revert w. induction l1 as [|a l1 IH]; intros w; [done|].
  cbn [app run]. destruct (perform a w) as [[w1| |]|]; [apply IH|done..].
Qed.





Local Ltac tr := cbn [trace stopped emit stop set_chan set_hub].

Lemma sys_step_stopped w a w' c :
  sys_step w a (Next w') → c ∈ stopped w →
  c ∈ stopped w' ∧ wrote c (trace w') = wrote c (trace w).
Proof.
  intros Hs Hst.
  inversion Hs as [line|code|p c0|c0|c0 m Hcl Hfull| |c0 fails w1 Hturn|ev o Hstep];
    subst; try done.
  - split; [done|]. tr. by rewrite wrote_app, app_nil_r.
  - split; [done|]. unfold enqueue. tr. by rewrite wrote_app, app_nil_r.
  - unfold writePump_turn in Hturn.
    destruct (decide (c0 ∈ stopped w)) as [|Hn]; [done|].
    assert (c0 ≠ c) by (by intros ->).
    destruct (buf (chan_of w c0)) as [|m rest].
    + destruct (closed _); [|done]. injection Hturn as <-.
      split; [tr; set_solver|]. tr.
      by rewrite wrote_app, app_nil_r.
    + destruct fails; injection Hturn as <-.
      * split; [tr; set_solver|]. tr.
        by rewrite wrote_app, app_nil_r.
      * split; [done|]. tr. rewrite wrote_app. simpl (wrote c [_]).
        rewrite decide_False by done. by rewrite app_nil_r.
  - inversion Hstep as [order Hrange Heq].
    assert (Hh : handle ev order w = Next w') by done. clear Heq.
    destruct ev as [c0|c0|message]; cbn in Hh.
    + by injection Hh as <-.
    + unfold on_unregister in Hh. destruct (decide _); [|by injection Hh as <-].
      cbn in Hh. destruct (closed _); [done|]. injection Hh as <-. tr.
      split; [done|]. by rewrite wrote_app, app_nil_r.
    + unfold on_broadcast in Hh.
      destruct (unmarshalEnvelope message) as [env []].
      { injection Hh as <-. split; [done|]. tr.
        by rewrite wrote_app, app_nil_r. }
      pose proof (fanout_effect c order message (persist env w)) as Hf.
      rewrite Hh in Hf. cbn in Hf.
      destruct Hf as (_ & _ & Hst' & Hw' & _).
      rewrite Hst', Hw', wrote_persist.
      split; [|done]. by rewrite (proj2 (proj2 (persist_same env w))).
Qed.

(** X15.  A failed write ends the write pump for good: once
    [WriteMessage] has returned an error for a client, whatever the
    program does afterwards, nothing more is written to the transport of
    that client, and the message of the failed write is not written
    either. *)
Theorem failed_write_ends_the_pump w c w1 :
  sys_step w (AWrite c true) (Next w1) →
  ∀ acts w', exec w1 acts (Next w') →
    c ∈ stopped w' ∧ wrote c (trace w') = wrote c (trace w).
Proof.
  intros Hs acts w' Hexec.
  assert (H1 : c ∈ stopped w1 ∧ wrote c (trace w1) = wrote c (trace w)).
  { inversion Hs as [| | | | | |c0 fails w2 Hturn|]; subst.
    unfold writePump_turn in Hturn. destruct (decide _); [done|].
    destruct (buf (chan_of w c)) as [|m rest].
    - destruct (closed _); [|done]. injection Hturn as <-.
      split; [tr; set_solver|].
      tr. by rewrite wrote_app, app_nil_r.
    - injection Hturn as <-.
      split; [tr; set_solver|].
      tr. by rewrite wrote_app, app_nil_r. }
  destruct H1 as [Hst Hw]. rewrite <- Hw. clear Hs Hw.
  revert w1 Hexec Hst. induction acts as [|a acts IH]; intros w1 Hexec Hst.
  - by apply exec_nil_inv in Hexec as [= <-].
  - apply exec_cons_inv in Hexec as [(w2 & Hstep & Hexec)|[_ Hne]];
      [|by destruct (Hne w')].
    destruct (sys_step_stopped w1 a w2 c Hstep Hst) as [Hst2 Hw2].
    destruct (IH w2 Hexec Hst2) as [? ?]. split; [done|]. congruence.
Qed.
End Pumps.

Section Joining.
Context {DB : Type} {repo : Repository DB} {json : Json}.
Implicit Types (w : World (DB:=DB)) (c : Client).

Lemma room_mkClient a r u : room (mkClient a r u) = r.
Proof. reflexivity. Qed.

Lemma run_replay c msgs : ∀ w,
  closed (chan_of w c) = false →
  (length (buf (chan_of w c)) + length msgs ≤ sendCap)%nat →
  ∃ w', run (replay c msgs) w = Some (Next w') ∧
        hub w' = hub w ∧ stopped w' = stopped w ∧
        chan_of w' c =
          mkChan (buf (chan_of w c)
                    ++ omap (marshalChat "chat_message" (room c)) msgs) false ∧
        (∀ c', c' ≠ c → chan_of w' c' = chan_of w c') ∧
        wrote c (trace w') = wrote c (trace w).
Proof.
  induction msgs as [|msg msgs IH]; intros w Hcl Hlen.
  - exists w. cbn [replay run omap]. rewrite app_nil_r.
    split; [done|]. split; [done|]. split; [done|].
    split; [|done]. destruct (chan_of w c); cbn in *; by subst.
  - cbn [replay omap list_omap]. cbn [length] in Hlen.
    destruct (marshalChat "chat_message" (room c) msg) as [m|].
    + cbn [run perform]. rewrite Hcl.
      rewrite (proj2 (full_false (chan_of w c))) by lia.
      destruct (IH (enqueue c m w)) as (w' & Hrun & Hh & Hst & Hch & Hoth & Hw).
      * unfold enqueue. rewrite chan_of_emit, chan_of_set_chan.
        by rewrite decide_True.
      * unfold enqueue. rewrite chan_of_emit, chan_of_set_chan.
        rewrite decide_True by done. cbn [buf]. rewrite length_app.
        cbn [length]. lia.
      * exists w'. split; [exact Hrun|]. split; [done|]. split; [done|].
        split; [|split].
        -- rewrite Hch. unfold enqueue.
           rewrite chan_of_emit, chan_of_set_chan, decide_True by done.
           cbn [buf]. by rewrite <- app_assoc.
        -- intros c' Hne. rewrite (Hoth c' Hne). unfold enqueue.
           rewrite chan_of_emit, chan_of_set_chan.
           by rewrite decide_False by done.
        -- rewrite Hw. unfold enqueue. cbn [trace emit set_chan].
           by rewrite wrote_app, app_nil_r.
    + cbn [run perform].
      destruct (IH (emit (Logged "LastMessage Marshal error:") w))
        as (w' & Hrun & Hh & Hst & Hch & Hoth & Hw).
      * by rewrite chan_of_emit.
      * rewrite chan_of_emit. lia.
      * exists w'. split; [exact Hrun|]. split; [done|]. split; [done|].
        split; [|split].
        -- by rewrite Hch, chan_of_emit.
        -- intros c' Hne. by rewrite (Hoth c' Hne), chan_of_emit.
        -- rewrite Hw. cbn [trace emit]. by rewrite wrote_app, app_nil_r.
Qed.

(** X16.  Joining, end to end.  [serveWs] for a new client, run
    without interruption on a request with both parameters and a
    successful upgrade, with a history of at most 256 messages, comes
    to its end: the client is in the registry and in the set of its
    room, its queue is open and holds exactly the encoded history in
    order, nothing has been written to its transport yet, and the queue
    and the registration of every other client are as before. *)
Theorem serveWs_registers_with_the_history_queued a room username d msgs w :
  room ≠ EmptyString → username ≠ EmptyString →
  GetLastMessages room 10 d = (msgs, false) →
  (length msgs ≤ sendCap)%nat →
  fresh w (mkClient a room username) →
  ∃ w',
    run (serveWs a room username true d) w = Some (Next w') ∧
    mkClient a room username ∈ clients (hub w') ∧
    mkClient a room username ∈ members (hub w') room ∧
    chan_of w' (mkClient a room username) =
      mkChan (omap (marshalChat "chat_message" room) msgs) false ∧
    wrote (mkClient a room username) (trace w') = [] ∧
    ∀ c', c' ≠ mkClient a room username →
          chan_of w' c' = chan_of w c' ∧
          (c' ∈ clients (hub w') ↔ c' ∈ clients (hub w)).
Proof.
  intros Hr Hu Hget Hlen [Hreg Hch Hpump Hsent Hwrote].
  set (c := mkClient a room username) in *.
  assert (Hnew : chan_of w c = newChan) by (unfold chan_of; by rewrite Hch).
  destruct (run_replay c msgs w) as (w1 & Hrun & Hh & Hst & Hch1 & Hoth & Hw).
  { by rewrite Hnew. }
  { by rewrite Hnew. }
  unfold serveWs. rewrite decide_False by (by intros [?|?]).
  cbn [negb]. rewrite Hget. fold c. rewrite run_app, Hrun.
  cbn [run perform handle on_register].
  eexists. split; [reflexivity|]. cbn [hub set_hub clients rooms].
  split; [apply elem_of_union; left; by apply elem_of_singleton|]. split.
  { unfold members at 1. cbn [rooms]. pose proof (room_mkClient a room username) as Hroomc.
    fold c in Hroomc. rewrite Hroomc.
    rewrite lookup_insert_eq.
    match goal with
    | |- _ ∈ from_option id ∅ (Some ?X) => change (c ∈ X)
    end.
    apply elem_of_union; left; by apply elem_of_singleton. }
  split.
  { change (chan_of (set_hub ?h w1) c) with (chan_of w1 c).
    rewrite Hch1, Hnew. done. }
  split.
  { change (trace (set_hub ?h w1)) with (trace w1). by rewrite Hw. }
  intros c' Hne. split.
  - change (chan_of (set_hub ?h w1) c') with (chan_of w1 c'). by apply Hoth.
  - rewrite Hh, elem_of_union, elem_of_singleton. split; [|by right].
    by intros [->|?].
Qed.

(** X9.  When [GetLastMessages] fails, [serveWs] logs it, replays
    nothing, whatever came with the error, and registers the client all
    the same: run without interruption for a new client, it comes to
    its end with the client in the registry and in the set of its room,
    its queue open and empty. *)
Theorem serveWs_registers_without_history a room username d msgs w :
  room ≠ EmptyString → username ≠ EmptyString →
  GetLastMessages room 10 d = (msgs, true) →
  fresh w (mkClient a room username) →
  sends (serveWs a room username true d) = [] ∧
  ∃ w',
    run (serveWs a room username true d) w = Some (Next w') ∧
    mkClient a room username ∈ clients (hub w') ∧
    mkClient a room username ∈ members (hub w') room ∧
    chan_of w' (mkClient a room username) = newChan ∧
    trace w' = trace w ++ [Logged "GetLastMessages error:"].
Proof.
  intros Hr Hu Hget [Hreg Hch Hpump Hsent Hwrote].
  set (c := mkClient a room username) in *.
  unfold serveWs. rewrite decide_False by (by intros [?|?]).
  cbn [negb]. rewrite Hget. fold c. split; [done|].
  cbn [app run perform handle on_register].
  eexists. split; [reflexivity|]. cbn [hub set_hub clients rooms].
  split; [apply elem_of_union; left; by apply elem_of_singleton|]. split.
  { unfold members at 1. cbn [rooms]. pose proof (room_mkClient a room username) as Hroomc.
    fold c in Hroomc. rewrite Hroomc.
    rewrite lookup_insert_eq.
    match goal with
    | |- _ ∈ from_option id ∅ (Some ?X) => change (c ∈ X)
    end.
    apply elem_of_union; left; by apply elem_of_singleton. }
  split; [|done].
  change (chan_of (set_hub ?h ?w0) c) with (chan_of w0 c).
  rewrite chan_of_emit. unfold chan_of. by rewrite Hch.
Qed.

Lemma replay_overflows c msgs rest : ∀ w,
  closed (chan_of w c) = false →
  (sendCap < length (buf (chan_of w c))
               + length (omap (marshalChat "chat_message" (room c)) msgs))%nat →
  (length (buf (chan_of w c)) ≤ sendCap)%nat →
  ∀ o, ¬ exec w (replay c msgs ++ rest) o.
Proof.
  induction msgs as [|msg msgs IH]; intros w Hcl Hover Hle o Hexec.
  - cbn in Hover. lia.
  - cbn [replay omap list_omap] in Hexec, Hover.
    destruct (marshalChat "chat_message" (room c) msg) as [m|].
    + cbn [app] in Hexec.
      apply exec_cons_inv in Hexec as [(w1 & Hs & Hexec)|[Hs Hne]].
      * inversion Hs as [| | | |c0 m0 Hcl0 Hfull| | |]; subst.
        apply full_false in Hfull.
        apply (IH (enqueue c m w)) in Hexec; [done|..].
        -- unfold enqueue. rewrite chan_of_emit, chan_of_set_chan.
           by rewrite decide_True.
        -- unfold enqueue. rewrite chan_of_emit, chan_of_set_chan.
           rewrite decide_True by done. cbn [buf]. rewrite length_app.
           cbn [length] in *. lia.
        -- unfold enqueue. rewrite chan_of_emit, chan_of_set_chan.
           rewrite decide_True by done. cbn [buf]. rewrite length_app.
           cbn [length]. lia.
      * inversion Hs; subst; [by destruct (Hne (enqueue c m w))|congruence].
    + cbn [app] in Hexec.
      apply exec_cons_inv in Hexec as [(w1 & Hs & Hexec)|[Hs Hne]].
      * inversion Hs; subst.
        apply (IH (emit (Logged "LastMessage Marshal error:") w)) in Hexec;
          [done|by rewrite chan_of_emit..].
      * inversion Hs; subst.
        by destruct (Hne (emit (Logged "LastMessage Marshal error:") w)).
Qed.

(** X17.  The replay is not bounded by the queue: when the history
    holds more than 256 messages that marshal, [serveWs], which starts
    the write pump only after registering, cannot come to its end by
    itself: its send to the full queue waits, and the client is never
    registered. *)
Theorem serveWs_waits_on_a_long_history a room username d msgs w :
  room ≠ EmptyString → username ≠ EmptyString →
  GetLastMessages room 10 d = (msgs, false) →
  (sendCap < length (omap (marshalChat "chat_message" room) msgs))%nat →
  fresh w (mkClient a room username) →
  ∀ o, ¬ exec w (serveWs a room username true d) o.
Proof.
  intros Hr Hu Hget Hlen [Hreg Hch Hpump Hsent Hwrote] o.
  set (c := mkClient a room username) in *.
  assert (Hnew : chan_of w c = newChan) by (unfold chan_of; by rewrite Hch).
  unfold serveWs. rewrite decide_False by (by intros [?|?]).
  cbn [negb]. rewrite Hget. fold c.
  apply replay_overflows; rewrite Hnew; [done| |cbn; unfold sendCap; lia].
  exact Hlen.
Qed.

(** X18.  Registering, then broadcasting.  Before its Register event
    is handled a broadcast puts nothing into the queue of a client;
    once the Hub has handled it, a broadcast whose envelope names the
    room of the client puts the message into the queue of the client,
    once, provided no registered client of the room has a full
    queue. *)
Theorem registered_client_gets_the_next_broadcast w c message env :
  reachable w → c ∉ clients (hub w) → closed (chan_of w c) = false →
  unmarshalEnvelope message = (env, false) → Room env = room c →
  full (chan_of w c) = false →
  (∀ c', c' ∈ receivers w (room c) → full (chan_of w c') = false) →
  (∀ o, step w (Broadcast message) o →
        sent_to c (trace (world_of o)) = sent_to c (trace w) ∧
        chan_of (world_of o) c = chan_of w c) ∧
  (∀ o, Run w [Register c; Broadcast message] o →
        ∃ w', o = Next w' ∧
              sent_to c (trace w') = sent_to c (trace w) ++ [message] ∧
              buf (chan_of w' c) = buf (chan_of w c) ++ [message]).
Proof.
  intros Hreach Hout Hopen Henv Hroom Hfull Hothers. split.
  { intros o0 Hstep. inversion Hstep as [order Hrange Heq]. cbn [handle].
    by apply broadcast_skips_unregistered. }
  intros o Hrun.
  unfold Run in Hrun. cbn [fmap list_fmap] in Hrun.
  apply exec_cons_inv in Hrun as [(w1 & Hs1 & Hrun)|[Hs1 Hne]]; cycle 1.
  { apply sys_step_event_inv in Hs1 as (order & _ & ->).
    cbn [handle] in Hne. unfold on_register in Hne. by edestruct Hne. }
  assert (Hreach1 : reachable w1).
  { by apply (reachable_step w (AEvent (Register c)) w1). }
  apply sys_step_event_inv in Hs1 as (order1 & _ & Hs1).
  cbn [handle] in Hs1. unfold on_register in Hs1. injection Hs1 as Hw1.
  assert (Hch1 : ∀ c', chan_of w1 c' = chan_of w c') by (by subst w1).
  assert (Hcl1 : clients (hub w1) = {[c]} ∪ clients (hub w)) by (by subst w1).
  assert (Ht1 : trace w1 = trace w) by (by subst w1).
  clear Hw1.
  assert (Hin1 : c ∈ receivers w1 (Room env)).
  { apply elem_of_receivers. rewrite Hcl1.
    split; [apply elem_of_union; left; by apply elem_of_singleton|done]. }
  assert (Hfull1 : ∀ c', c' ∈ receivers w1 (Room env) →
                         full (chan_of w1 c') = false).
  { intros c' [Hin' Hr']%elem_of_receivers. rewrite Hch1.
    rewrite Hcl1 in Hin'.
    apply elem_of_union in Hin' as [->%elem_of_singleton|Hin']; [done|].
    apply Hothers, elem_of_receivers. split; [done|congruence]. }
  assert (Hany : ∀ o', sys_step w1 (AEvent (Broadcast message)) o' →
            ∃ w', o' = Next w' ∧
              sent_to c (trace w') = sent_to c (trace w) ++ [message] ∧
              buf (chan_of w' c) = buf (chan_of w c) ++ [message]).
  { intros o' (order & Hrange & ->)%sys_step_event_inv.
    cbn [target] in Hrange. rewrite Henv in Hrange. cbn [fst] in Hrange.
    destruct (broadcast_delivers w1 message env order
                (reachable_Inv _ Hreach1) Henv Hfull1 Hrange)
      as (w' & ds & Hb & Hhub & Hdel & Hperm & Hq & Hrest).
    cbn [handle]. rewrite Hb. exists w'. split; [done|].
    pose proof (Hq c Hin1) as Hc2. rewrite Hch1 in Hc2.
    unfold on_broadcast in Hb. rewrite Henv in Hb.
    pose proof (fanout_effect c order message (persist env w1)) as Hf.
    rewrite Hb in Hf. cbn [world_of] in Hf.
    destruct Hf as (_ & _ & _ & _ & _ & n & Hsn & Hbn & _).
    rewrite chan_of_persist, Hc2, Hch1 in Hbn. cbn [buf] in Hbn.
    apply app_inv_head in Hbn. rewrite <- Hbn in Hsn.
    rewrite Hsn, sent_to_persist, Ht1, Hc2. done. }
  apply exec_cons_inv in Hrun as [(w2 & Hs2 & Hrun)|[Hs2 Hne]].
  - apply exec_nil_inv in Hrun as ->. by apply Hany.
  - destruct (Hany o Hs2) as (w' & -> & _). by destruct (Hne w').
Qed.
End Joining.

Section LegacyRun.
Context {DB : Type}.
Variable SaveMessage : Legacy.Message → DB → DB * bool.
Variable unmarshalMessage : string → Legacy.Message * bool.
Implicit Types (w : World (DB:=DB)) (c : Client).

Lemma Legacy_fanout_closed order message : ∀ w c,
  c ∈ order → closed (chan_of w c) = true →
  ∃ w', Legacy.fanout order message w = Panic w' "send on closed channel".
Proof.
  induction order as [|client rest IH]; intros w c Hin Hcl;
    [by apply elem_of_nil in Hin|].
  cbn [Legacy.fanout].
  destruct (closed (chan_of w client)) eqn:Hc; [by eexists|].
  apply elem_of_cons in Hin as [->|Hin]; [congruence|].
  assert (Hne : client ≠ c) by (intros ->; congruence).
  destruct (full (chan_of w client)).
  - apply (IH _ c Hin).
    change (chan_of (set_hub ?h ?w0) c) with (chan_of w0 c).
    rewrite chan_of_emit, chan_of_set_chan. by rewrite decide_False.
  - apply (IH _ c Hin).
    rewrite chan_of_emit, chan_of_set_chan. by rewrite decide_False.
Qed.

(** X20.  In the first revision a client that has left makes the Hub
    panic: the Unregister event of a registered client closes its queue
    and leaves it in the set of its room, and the next broadcast to
    that room, whatever the order of the range and whoever else is in
    the room, sends on the closed queue. *)
Theorem Legacy_broadcast_after_unregister_panics w c message :
  c ∈ clients (hub w) → c ∈ members (hub w) (room c) →
  closed (chan_of w c) = false →
  Legacy.Room (unmarshalMessage message).1 = room c →
  (∃ o, Legacy.Run SaveMessage unmarshalMessage w
          [Unregister c; Broadcast message] o) ∧
  ∀ o, Legacy.Run SaveMessage unmarshalMessage w
         [Unregister c; Broadcast message] o →
       ∃ w', o = Panic w' "send on closed channel".
Proof.
  intros Hin Hmem Hopen Hroom.
  destruct (on_unregister_registered w c Hin Hopen)
    as (w1 & Hun & Hcl1 & Hr1 & Hch1 & Ht1).
  assert (Hany : ∀ o, Legacy.step SaveMessage unmarshalMessage w1
                        (Broadcast message) o →
                      ∃ w', o = Panic w' "send on closed channel").
  { intros o Hstep. inversion Hstep as [order Hrange Heq].
    cbn [Legacy.target] in Hrange. cbn [Legacy.handle].
    unfold Legacy.on_broadcast.
    apply (Legacy_fanout_closed order message _ c).
    - unfold range_of in Hrange. rewrite Hrange, Hroom.
      apply elem_of_elements. unfold members. by rewrite Hr1.
    - change (chan_of (set_db ?d w1) c) with (chan_of w1 c).
      by rewrite Hch1. }
  assert (Hfirst : ∀ o, Legacy.step SaveMessage unmarshalMessage w
                          (Unregister c) o → o = Next w1).
  { intros o Hstep. inversion Hstep as [order Hrange Heq].
    cbn [Legacy.handle]. exact Hun. }
  split.
  - destruct (Hany (Legacy.handle SaveMessage unmarshalMessage
                      (Broadcast message)
                      (elements (Legacy.target unmarshalMessage
                                   (Broadcast message) w1)) w1))
      as (w' & Hp); [apply Legacy.step_handle; unfold range_of; reflexivity|].
    exists (Panic w' "send on closed channel").
    eapply Legacy.Run_next.
    + rewrite <- Hun. apply (Legacy.step_handle _ _ w (Unregister c) []).
      unfold range_of. cbn [Legacy.target]. by rewrite elements_empty.
    + apply Legacy.Run_panic. rewrite <- Hp.
      apply Legacy.step_handle. unfold range_of. reflexivity.
  - intros o Hrun.
    inversion Hrun as [|ev evs w2 o2 Hs Hrest|ev evs w2 c2 Hs|ev evs w2 why Hs];
      subst.
    + apply Hfirst in Hs. injection Hs as ->.
      inversion Hrest as [|ev evs w3 o3 Hs3 Hrest3|ev evs w3 c3 Hs3|ev evs w3 why Hs3];
        subst.
      * by destruct (Hany _ Hs3).
      * by destruct (Hany _ Hs3).
      * by apply Hany.
    + by apply Hfirst in Hs.
    + by apply Hfirst in Hs.
Qed.

Lemma Legacy_fanout_outcomes order message : ∀ w,
  NoDup order → registered_open w →
  (∃ w', Legacy.fanout order message w = Next w' ∧ registered_open w' ∧
         rooms (hub w') = rooms (hub w) ∧
         clients (hub w') ⊆ clients (hub w)) ∨
  (∃ w' c, Legacy.fanout order message w = Panic w' "send on closed channel" ∧
           c ∈ order ∧ (c ∉ clients (hub w)) ∧ closed (chan_of w c) = true).
Proof.
  induction order as [|client rest IH]; intros w Hnd Hopen.
  - left. exists w. by repeat split.
  - apply NoDup_cons in Hnd as [Hnotin Hnd]. cbn [Legacy.fanout].
    destruct (closed (chan_of w client)) eqn:Hc.
    { right. exists w, client. split; [done|].
      split; [by apply elem_of_cons; left|]. split; [|done].
      intros Hin. specialize (Hopen client Hin). congruence. }
    destruct (full (chan_of w client)).
    + set (w1 := set_hub _ _).
      assert (Hopen1 : registered_open w1).
      { intros c Hin. unfold w1 in *. cbn [hub set_hub clients] in Hin.
        apply elem_of_difference in Hin as [Hin Hne].
        change (chan_of (set_hub ?h ?w0) c) with (chan_of w0 c).
        rewrite chan_of_emit, chan_of_set_chan.
        rewrite decide_False by (intros ->; apply Hne; by apply elem_of_singleton).
        by apply Hopen. }
      destruct (IH w1 Hnd Hopen1)
        as [(w' & Hf & Ho' & Hr' & Hc')|(w' & c & Hf & Hin & Hout & Hcl)].
      * left. exists w'. split; [done|]. split; [done|]. split; [done|].
        unfold w1 in Hc'. cbn [hub set_hub clients] in Hc'.
        intros x Hx. apply Hc' in Hx. by apply elem_of_difference in Hx as [? _].
      * assert (Hne : client ≠ c) by (by intros ->).
        right. exists w', c. split; [done|].
        split; [by apply elem_of_cons; right|].
        unfold w1 in Hcl.
        change (chan_of (set_hub ?h ?w0) c) with (chan_of w0 c) in Hcl.
        rewrite chan_of_emit, chan_of_set_chan in Hcl.
        rewrite decide_False in Hcl by done. split; [|done].
        intros Hreg. specialize (Hopen c Hreg). congruence.
    + set (w1 := emit _ _).
      assert (Hopen1 : registered_open w1).
      { intros c Hin. unfold w1 in *. rewrite chan_of_emit, chan_of_set_chan.
        destruct (decide (client = c)); [done|]. by apply Hopen. }
      destruct (IH w1 Hnd Hopen1)
        as [(w' & Hf & Ho' & Hr' & Hc')|(w' & c & Hf & Hin & Hout & Hcl)].
      * left. exists w'. by repeat split.
      * assert (Hne : client ≠ c) by (by intros ->).
        right. exists w', c. split; [done|].
        split; [by apply elem_of_cons; right|].
        unfold w1 in Hcl. rewrite chan_of_emit, chan_of_set_chan in Hcl.
        rewrite decide_False in Hcl by done. split; [|done].
        intros Hreg. specialize (Hopen c Hreg). congruence.
Qed.

(** X21.  What the Hub of the first revision can do with an event, in a
    state where the queues of the registered clients are open and for
    a Register event whose queue is open: it never waits on a client
    and never closes a queue twice.  It handles the event, and the
    queues of the registered clients are open again; or the event is a
    broadcast that panics in its send to a client of the room that is
    no longer registered and whose queue is closed. *)
Theorem Legacy_panics_only_on_a_departed_member w ev :
  registered_open w → admissible w (AEvent ev) →
  ∀ o, Legacy.step SaveMessage unmarshalMessage w ev o →
    (∃ w', o = Next w' ∧ registered_open w') ∨
    (∃ message w' c,
        ev = Broadcast message ∧ o = Panic w' "send on closed channel" ∧
        c ∈ members (hub w) (Legacy.Room (unmarshalMessage message).1) ∧
        (c ∉ clients (hub w)) ∧ closed (chan_of w c) = true).
Proof.
  intros Hopen Hadm o Hstep. inversion Hstep as [order Hrange Heq].
  destruct ev as [c|c|message]; cbn [Legacy.handle].
  - left. eexists. split; [reflexivity|]. intros c' Hin.
    change (chan_of (set_hub ?h w) c') with (chan_of w c').
    cbn [hub set_hub clients] in Hin.
    apply elem_of_union in Hin as [->%elem_of_singleton|Hin];
      [exact Hadm|by apply Hopen].
  - left. destruct (decide (c ∈ clients (hub w))) as [Hin|Hout].
    + destruct (on_unregister_registered w c Hin (Hopen c Hin))
        as (w1 & Hun & Hcl1 & Hr1 & Hch1 & Ht1).
      exists w1. split; [done|]. intros c' Hin'. rewrite Hcl1 in Hin'.
      apply elem_of_difference in Hin' as [Hin' Hne].
      unfold on_unregister in Hun. rewrite decide_True in Hun by done.
      simpl in Hun. change (chan_of (set_hub _ w) c) with (chan_of w c) in Hun.
      rewrite (Hopen c Hin) in Hun. injection Hun as <-.
      change (chan_of (emit ?e (set_chan ?a ?b (set_hub ?h w))) c')
        with (chan_of (emit e (set_chan a b w)) c').
      rewrite chan_of_emit, chan_of_set_chan.
      rewrite decide_False by (intros ->; apply Hne; by apply elem_of_singleton).
      by apply Hopen.
    + exists w. split; [by apply on_unregister_absent|done].
  - unfold Legacy.on_broadcast. cbn [Legacy.target] in Hrange.
    set (w1 := set_db _ w).
    assert (Hnd : NoDup order).
    { unfold range_of in Hrange. rewrite Hrange. apply NoDup_elements. }
    destruct (Legacy_fanout_outcomes order message w1 Hnd)
      as [(w' & Hf & Ho' & _)|(w' & c & Hf & Hin & Hout & Hcl)].
    + intros c Hin. by apply Hopen.
    + left. by exists w'.
    + right. exists message, w', c. split; [done|]. split; [done|].
      split; [|done]. unfold range_of in Hrange. rewrite Hrange in Hin.
      by apply elem_of_elements in Hin.
Qed.
End LegacyRun.

Section EndToEnd.
Context {DB : Type} {repo : Repository DB} {json : Json}.
Implicit Types (w : World (DB:=DB)) (c : Client).

(** The write pump of [c] takes one turn for each message of its open
    queue: it can, in one way only, and writes them in order. *)
Lemma writes_empty_the_queue c ms : ∀ w,
  c ∉ stopped w → chan_of w c = mkChan ms false →
  ∃ w', (∀ o, exec w (repeat (AWrite c false) (length ms)) o ↔ o = Next w') ∧
        wrote c (trace w') = wrote c (trace w) ++ ms ∧
        chan_of w' c = mkChan [] false.
Proof.
  induction ms as [|m ms IH]; intros w Hs Hch.
  - exists w. split; [|by rewrite app_nil_r]. intros o. cbn [length repeat].
    split; [apply exec_nil_inv|intros ->; constructor].
  - set (w1 := emit (Wrote c m) (set_chan c (mkChan ms false) w)).
    assert (Hturn : writePump_turn c false w = Some w1).
    { unfold writePump_turn. rewrite decide_False by done. by rewrite Hch. }
    destruct (IH w1) as (w' & Hexec & Hw & Hc); [done| |].
    { unfold w1. rewrite chan_of_emit, chan_of_set_chan.
      by rewrite decide_True. }
    exists w'. split; [|split; [|done]].
    + intros o. cbn [length repeat]. split.
      * intros [(w2 & Hstep & Hrest)|[Hstep Hne]]%exec_cons_inv.
        -- inversion Hstep as [| | | | | |c0 fails w3 Hturn'|]; subst.
           rewrite Hturn in Hturn'. injection Hturn' as <-.
           by apply Hexec.
        -- inversion Hstep as [| | | | | |c0 fails w3 Hturn'|]; subst.
           by destruct (Hne w3).
      * intros ->. eapply exec_next; [by apply sys_write|]. by apply Hexec.
    + rewrite Hw. unfold w1. cbn [trace emit set_chan].
      rewrite wrote_app. simpl (wrote c [_]).
      rewrite decide_True by done. by rewrite <- app_assoc.
Qed.

(** X22.  Echo, end to end.  A registered client sends a chat frame
    that names its own room.  Once the Hub has handled what the read
    pump sends for the frame, in whatever order it ranges over the room,
    and the write pump of the client has taken one turn for each
    message of its queue, the transport of the client has got what was
    queued before and then the message as forwarded, with the server
    time stamp: the Hub does not leave out the sender. *)
Theorem chat_message_comes_back_to_its_sender
    w c message now wrap err msg err' fwd env :
  reachable w → c ∈ clients (hub w) → c ∉ stopped w →
  unmarshalEnvelope message = (wrap, err) → Type_ wrap = "chat_message" →
  unmarshalMessage (Payload wrap) = (msg, err') →
  marshalChat "chat_message" (Room wrap)
    (mkMessage (Username msg) (Text msg) now) = Some fwd →
  unmarshalEnvelope fwd = (env, false) → Room env = room c →
  (∀ c', c' ∈ receivers w (room c) → full (chan_of w c') = false) →
  (∃ o, exec w ((AEvent <$> events (readPump c [Frame message now]))
                  ++ repeat (AWrite c false)
                       (S (length (buf (chan_of w c))))) o) ∧
  ∀ o, exec w ((AEvent <$> events (readPump c [Frame message now]))
                 ++ repeat (AWrite c false)
                      (S (length (buf (chan_of w c))))) o →
       ∃ w', o = Next w' ∧
             wrote c (trace w') = wrote c (trace w) ++ buf (chan_of w c) ++ [fwd] ∧
             buf (chan_of w' c) = [].
Proof.
  intros Hreach Hin Hrun Henv Htype Hmsg Hfwd Henv' Hroom Hfull.
  assert (Hev : events (readPump c [Frame message now]) = [Broadcast fwd]).
  { cbn [readPump]. rewrite app_nil_r.
    rewrite (readPump_frame_events _ _ _ _ Henv).
    rewrite decide_True by done. rewrite Htype, Hmsg. cbn [fst].
    by rewrite Hfwd. }
  rewrite Hev. cbn [fmap list_fmap app].
  pose proof (reachable_Inv _ Hreach) as HI.
  rewrite <- Hroom in Hfull.
  assert (Hc : c ∈ receivers w (Room env)) by (by apply elem_of_receivers).
  assert (Hany : ∀ o, sys_step w (AEvent (Broadcast fwd)) o →
            ∃ w1, o = Next w1 ∧ (c ∉ stopped w1) ∧
                  wrote c (trace w1) = wrote c (trace w) ∧
                  chan_of w1 c = mkChan (buf (chan_of w c) ++ [fwd]) false).
  { intros o (order & Hrange & ->)%sys_step_event_inv.
    cbn [target] in Hrange. rewrite Henv' in Hrange. cbn [fst] in Hrange.
    destruct (broadcast_delivers w fwd env order HI Henv' Hfull Hrange)
      as (w1 & ds & Hb & _ & _ & _ & Hq & _).
    cbn [handle]. rewrite Hb. exists w1. split; [done|].
    unfold on_broadcast in Hb. rewrite Henv' in Hb.
    pose proof (fanout_effect c order fwd (persist env w)) as Hf.
    rewrite Hb in Hf. cbn [world_of] in Hf.
    destruct Hf as (_ & _ & Hst & Hw & _).
    rewrite Hst, Hw, wrote_persist, (proj2 (proj2 (persist_same env w))).
    split; [done|]. split; [done|]. by apply Hq. }
  destruct (step_total w (Broadcast fwd)) as [o1 Hstep1].
  destruct (Hany o1 (sys_event _ _ _ Hstep1)) as (w1 & -> & Hs1 & Hw1 & Hch1).
  destruct (writes_empty_the_queue c (buf (chan_of w c) ++ [fwd]) w1 Hs1 Hch1)
    as (w' & Hexec & Hw' & Hc').
  rewrite length_app in Hexec. cbn [length] in Hexec.
  rewrite Nat.add_1_r in Hexec.
  split.
  - exists (Next w'). eapply exec_next; [by apply sys_event|]. by apply Hexec.
  - intros o [(w2 & Hstep & Hrest)|[Hstep Hne]]%exec_cons_inv.
    + destruct (Hany _ Hstep) as (w3 & [= <-] & Hs3 & Hw3 & Hch3).
      destruct (writes_empty_the_queue c (buf (chan_of w c) ++ [fwd]) w2
                  Hs3 Hch3) as (w'' & Hexec2 & Hw2 & Hc2).
      rewrite length_app in Hexec2. cbn [length] in Hexec2.
      rewrite Nat.add_1_r in Hexec2. apply Hexec2 in Hrest as ->.
      exists w''. split; [done|]. rewrite Hw2, Hw3, Hc2. done.
    + destruct (Hany _ Hstep) as (w3 & -> & _). by destruct (Hne w3).
Qed.
End EndToEnd.

Section LegacyEndToEnd.
Context {DB : Type}.
Variable SaveMessage : Legacy.Message → DB → DB * bool.
Variable unmarshalMessage : string → Legacy.Message * bool.
Variable marshalMessage : Legacy.Message → option string.
Implicit Types (w : World (DB:=DB)) (c : Client).

Lemma Legacy_fanout_delivers order message : ∀ w,
  NoDup order →
  (∀ c, c ∈ order →
        closed (chan_of w c) = false ∧ full (chan_of w c) = false) →
  ∃ w', Legacy.fanout order message w = Next w' ∧ hub w' = hub w ∧
        (∀ c, c ∈ order →
              chan_of w' c = mkChan (buf (chan_of w c) ++ [message]) false) ∧
        (∀ c, c ∉ order → chan_of w' c = chan_of w c).
Proof.
  induction order as [|client rest IH]; intros w Hnd Hok.
  - exists w. split; [done|]. split; [done|].
    split; [intros c Hin; by apply elem_of_nil in Hin|done].
  - apply NoDup_cons in Hnd as [Hnotin Hnd]. cbn [Legacy.fanout].
    destruct (Hok client) as [-> ->]; [by apply elem_of_cons; left|].
    set (w1 := emit _ _).
    assert (Hch1 : ∀ c, c ≠ client → chan_of w1 c = chan_of w c).
    { intros c Hne. unfold w1. rewrite chan_of_emit, chan_of_set_chan.
      by rewrite decide_False. }
    destruct (IH w1 Hnd) as (w' & Hf & Hh & Hin & Hout).
    { intros c Hc. rewrite Hch1 by (by intros ->).
      apply Hok. by apply elem_of_cons; right. }
    exists w'. split; [done|]. split; [done|]. split.
    + intros c [->|Hc]%elem_of_cons.
      * rewrite (Hout client Hnotin). unfold w1.
        rewrite chan_of_emit, chan_of_set_chan. by rewrite decide_True.
      * rewrite (Hin c Hc), Hch1 by (by intros ->). done.
    + intros c Hc. apply not_elem_of_cons in Hc as [Hne Hc].
      by rewrite (Hout c Hc), Hch1.
Qed.

(** X23.  In the first revision a client speaks in its own room only:
    the read pump takes a frame, whatever it holds, as the text of a
    message of the room and the user of its connection; and when the
    Hub handles what the pump sends, which decodes to that room, with
    the queues of the room open and not full, every client in the set
    of the room gets it and no other queue changes. *)
Theorem Legacy_frame_reaches_the_room_of_its_sender w c text now fwd :
  marshalMessage (Legacy.mkMessage (room c) (username c) text now) = Some fwd →
  Legacy.Room (unmarshalMessage fwd).1 = room c →
  (∀ c', c' ∈ members (hub w) (room c) →
         closed (chan_of w c') = false ∧ full (chan_of w c') = false) →
  events (LegacyPumps.readPump marshalMessage c [Frame text now])
    = [Broadcast fwd] ∧
  ∀ o, Legacy.Run SaveMessage unmarshalMessage w
         (events (LegacyPumps.readPump marshalMessage c [Frame text now])) o →
       ∃ w', o = Next w' ∧ hub w' = hub w ∧
             (∀ c', c' ∈ members (hub w) (room c) →
                    chan_of w' c' = mkChan (buf (chan_of w c') ++ [fwd]) false) ∧
             (∀ c', c' ∉ members (hub w) (room c) →
                    chan_of w' c' = chan_of w c').
Proof.
  intros Hm Hroom Hok.
  assert (Hev : events (LegacyPumps.readPump marshalMessage c [Frame text now])
                = [Broadcast fwd]).
  { cbn [LegacyPumps.readPump]. by rewrite Hm. }
  split; [exact Hev|]. rewrite Hev.
  assert (Hany : ∀ o, Legacy.step SaveMessage unmarshalMessage w
                        (Broadcast fwd) o →
            ∃ w', o = Next w' ∧ hub w' = hub w ∧
             (∀ c', c' ∈ members (hub w) (room c) →
                    chan_of w' c' = mkChan (buf (chan_of w c') ++ [fwd]) false) ∧
             (∀ c', c' ∉ members (hub w) (room c) →
                    chan_of w' c' = chan_of w c')).
  { intros o Hstep. inversion Hstep as [order Hrange Heq].
    cbn [Legacy.target] in Hrange. rewrite Hroom in Hrange.
    unfold range_of in Hrange.
    assert (Hnd : NoDup order) by (rewrite Hrange; apply NoDup_elements).
    assert (Hmem : ∀ c', c' ∈ order ↔ c' ∈ members (hub w) (room c)).
    { intros c'. rewrite Hrange. apply elem_of_elements. }
    cbn [Legacy.handle]. unfold Legacy.on_broadcast.
    destruct (Legacy_fanout_delivers order fwd
                (set_db (SaveMessage (unmarshalMessage fwd).1 (db w)).1 w) Hnd)
      as (w' & Hf & Hh & Hin & Hout).
    { intros c' Hc'. apply Hok. by apply Hmem. }
    exists w'. split; [done|]. split; [done|]. split.
    - intros c' Hc'. by apply Hin, Hmem.
    - intros c' Hc'. apply Hout. by rewrite Hmem. }
  intros o Hrun.
  inversion Hrun as [|ev evs w2 o2 Hs Hrest|ev evs w2 c2 Hs|ev evs w2 why Hs];
    subst.
  - inversion Hrest; subst. by apply Hany.
  - by apply Hany.
  - by apply Hany.
Qed.
End LegacyEndToEnd.

Section Flooding.
Context {DB : Type} {repo : Repository DB} {json : Json}.
Implicit Types (w : World (DB:=DB)) (c : Client).

Lemma on_broadcast_stopped order message w :
  stopped (world_of (on_broadcast order message w)) = stopped w.
Proof.
  unfold on_broadcast. destruct (unmarshalEnvelope message) as [env []];
    [done|].
  destruct (fanout_effect (mkClient 1 EmptyString EmptyString) order message
              (persist env w)) as (_ & _ & -> & _).
  apply (persist_same env w).
Qed.

Lemma flooded_stopped n order message w :
  stopped (flooded n order message w) = stopped w.
Proof.
  induction n as [|n IH]; [done|].
  change (flooded (S n) order message w)
    with (world_of (on_broadcast order message (flooded n order message w))).
  by rewrite on_broadcast_stopped.
Qed.
End Flooding.

Section LegacyFlooding.
Context {DB : Type}.
Variable SaveMessage : Legacy.Message → DB → DB * bool.
Variable unmarshalMessage : string → Legacy.Message * bool.
Implicit Types (w : World (DB:=DB)) (c : Client).

Lemma Legacy_flood n c message w :
  closed (chan_of w c) = false →
  (length (buf (chan_of w c)) + n ≤ sendCap)%nat →
  let w' := Nat.iter n
              (fun w => world_of (Legacy.on_broadcast SaveMessage
                                    unmarshalMessage [c] message w)) w in
  hub w' = hub w ∧
  chan_of w' c = mkChan (buf (chan_of w c) ++ repeat message n) false.
Proof.
  intros Hcl. induction n as [|n IH]; intros Hlen.
  - cbn. rewrite app_nil_r. split; [done|].
    destruct (chan_of w c); cbn in *. by subst.
  - destruct IH as [IH1 IH2]; [lia|]. cbv zeta. rewrite Nat.iter_succ.
    set (wn := Nat.iter n _ w) in *.
    unfold Legacy.on_broadcast at 1 2. cbn [Legacy.fanout].
    change (chan_of (set_db ?d wn) c) with (chan_of wn c).
    rewrite IH2. cbn [closed buf].
    rewrite (proj2 (full_false _))
      by (cbn [buf]; rewrite length_app, repeat_length; lia).
    cbn [world_of]. split; [exact IH1|].
    rewrite chan_of_emit, chan_of_set_chan, decide_True by done.
    by rewrite <- app_assoc, <- repeat_cons.
Qed.
End LegacyFlooding.

Section SampleFacts.
#[local] Existing Instance MockDB.
#[local] Existing Instance MiniJson.codec.
Import Frames Sample.

Lemma w_alice_chan c : chan_of w_alice c = newChan.
Proof.
  unfold chan_of, w_alice, set_hub, w0, NewHub. cbn [chans].
  by rewrite lookup_empty.
Qed.

Lemma w_gone_reachable : reachable w_gone.
Proof.
  eapply (reachable_step _ (AEvent (Unregister alice)));
    [exact w_alice_reachable|exact I|].
  apply sys_event, step_unregister_inv. vm_compute. reflexivity.
Qed.

Lemma w_gone_lobby : alice ∈ members (hub w_gone) "lobby".
Proof.
  unfold members, w_gone, emit, set_chan, set_hub. cbn [hub rooms].
  rewrite lookup_singleton_eq. by apply elem_of_singleton.
Qed.

Lemma w_gone_empty : receivers w_gone "lobby" = ∅.
Proof.
  apply elem_of_equiv_empty_L. intros c [Hin _]%elem_of_receivers.
  unfold w_gone, emit, set_chan, set_hub in Hin. cbn [hub clients] in Hin.
  by apply elem_of_empty in Hin.
Qed.

Lemma w_full_running : alice ∉ stopped w_full.
Proof.
  unfold w_full. rewrite flooded_stopped.
  unfold w_alice, set_hub, w0, NewHub. cbn [stopped].
  apply not_elem_of_empty.
Qed.


Lemma w_full_write_fails :
  sys_step w_full (AWrite alice true)
    (Next (stop alice
             (emit (Logged "WriteMessage error: ")
                (set_chan alice (mkChan (repeat hello 255) false) w_full)))).
Proof.
  apply sys_write. unfold writePump_turn.
  rewrite decide_False by exact w_full_running.
  rewrite (proj2 (proj2 w_full_facts)). cbn [buf closed].
  change (repeat hello 256) with (hello :: repeat hello 255).
  reflexivity.
Qed.

Lemma typing_envelope :
  unmarshalEnvelope typing =
    (mkEnvelope "typing_status" "lobby"
       (MiniJson.js "{'user':'carol','status':true}"), false).
Proof. vm_compute. reflexivity. Qed.

Lemma typing_payload :
  unmarshalTypingStatus (MiniJson.js "{'user':'carol','status':true}")
  = (mkTypingStatus "carol" true, false).
Proof. vm_compute. reflexivity. Qed.

Lemma w_alice_running : alice ∉ stopped w_alice.
Proof.
  unfold w_alice, set_hub, w0, NewHub. cbn [stopped].
  apply not_elem_of_empty.
Qed.

Lemma hello_is_forwarded :
  marshalChat "chat_message" "lobby" (mkMessage "alice" "hi" T)
  = Some hello_forwarded.
Proof. vm_compute. reflexivity. Qed.

Lemma legacy_hello_marshalled :
  LegacySample.marshalMessage (Legacy.mkMessage "lobby" "alice" "hi" T)
  = Some LegacySample.hello.
Proof. vm_compute. reflexivity. Qed.

Lemma lobby_is_open c :
  c ∈ members (hub w_alice) "lobby" →
  closed (chan_of w_alice c) = false ∧ full (chan_of w_alice c) = false.
Proof. intros _. by rewrite w_alice_chan. Qed.

Lemma bob_is_new : bob ∉ clients (hub w_alice).
Proof.
  unfold w_alice, set_hub. cbn [hub clients].
  intros Hin%elem_of_singleton. discriminate.
Qed.

Lemma lobby_has_room c :
  c ∈ receivers w_alice "lobby" → full (chan_of w_alice c) = false.
Proof. intros _. by rewrite w_alice_chan. Qed.

Lemma legacy_hello_room :
  Legacy.Room (LegacySample.unmarshalMessage LegacySample.hello).1 = "lobby".
Proof. vm_compute. reflexivity. Qed.

Lemma legacy_w_full_facts :
  hub LegacySample.w_full = hub w_alice ∧
  chan_of LegacySample.w_full alice
    = mkChan (repeat LegacySample.hello 256) false.
Proof.
  pose proof (Legacy_flood LegacySample.SaveMessage
                LegacySample.unmarshalMessage 256 alice LegacySample.hello
                w_alice) as H.
  rewrite w_alice_chan in H. apply H; [done|].
  apply Nat.leb_le. reflexivity.
Qed.

Lemma fresh_NewHub (c : Client) : fresh (NewHub tt) c.
Proof.
  split; cbn [NewHub hub clients chans stopped trace];
    [apply not_elem_of_empty|apply lookup_empty|apply not_elem_of_empty
    |done|done].
Qed.
End SampleFacts.

Section SampleExtras.
#[local] Existing Instance MockDB.
#[local] Existing Instance MiniJson.codec.
Import Frames Sample.

Lemma Hub_never_panics_witness :
  reachable w_full ∧
  (∀ ev o, step w_full ev o →
    (∃ w', o = Next w') ∨
    (∃ message w' c, ev = Broadcast message ∧ o = Blocked w' c ∧
       c ∈ clients (hub w') ∧ full (chan_of w' c) = true)).
Proof.
  split; [exact (proj1 w_full_facts)|].
  apply (Hub_never_panics (repo:=MockDB) (json:=MiniJson.codec) w_full).
  exact (proj1 w_full_facts).
Defined.

Lemma queues_stay_bounded_witness :
  (length (buf (chan_of w_full alice)) ≤ sendCap)%nat.
Proof.
  apply (queues_stay_bounded (repo:=MockDB) (json:=MiniJson.codec)
           w_full alice).
  exact (proj1 w_full_facts).
Defined.

Lemma queue_closed_at_most_once_witness :
  closes alice (trace w_gone)
  = (if closed (chan_of w_gone alice) then 1 else 0)%nat.
Proof.
  apply (queue_closed_at_most_once (repo:=MockDB) (json:=MiniJson.codec)
           w_gone alice).
  exact w_gone_reachable.
Defined.

Lemma only_register_and_unregister_change_the_maps_witness :
  (∀ c, AEvent (Broadcast hello) ≠ AEvent (Register c)) ∧
  (∀ (w w' : World (DB:=Z)),
    sys_step w (AEvent (Broadcast hello)) (Next w') → hub w' = hub w).
Proof.
  split; [intros c; discriminate|].
  apply (only_register_and_unregister_change_the_maps
           (repo:=MockDB) (json:=MiniJson.codec) (AEvent (Broadcast hello)));
    intros c; discriminate.
Defined.

Lemma room_index_only_grows_witness :
  alice ∈ members (hub w_gone) "lobby" ∧
  (∀ acts w', exec w_gone acts (Next w') → alice ∈ members (hub w') "lobby").
Proof.
  split; [exact w_gone_lobby|].
  apply (room_index_only_grows (repo:=MockDB) (json:=MiniJson.codec)
           w_gone "lobby" alice).
  exact w_gone_lobby.
Defined.

Lemma register_twice_changes_nothing_witness :
  alice ∈ clients (hub w_alice) ∧
  (∀ o, step w_alice (Register alice) o → o = Next w_alice).
Proof.
  split; [exact alice_registered|].
  apply (register_twice_changes_nothing (repo:=MockDB) (json:=MiniJson.codec)
           w_alice alice).
  - exact w_alice_reachable.
  - exact alice_registered.
Defined.

Lemma broadcast_to_an_empty_room_witness :
  receivers w_gone "lobby" = ∅ ∧
  (∀ o, step w_gone (Broadcast hello) o →
    ∃ w', o = Next w' ∧ hub w' = hub w_gone ∧
          deliveries (trace w') = deliveries (trace w_gone) ∧
          ∀ c, chan_of w' c = chan_of w_gone c).
Proof.
  split; [exact w_gone_empty|].
  apply (broadcast_to_an_empty_room (repo:=MockDB) (json:=MiniJson.codec)
           w_gone hello
           (mkEnvelope "chat_message" "lobby"
              (MiniJson.js "{'username':'alice','text':'hi','timestamp':0}"))).
  - exact w_gone_reachable.
  - exact hello_envelope.
  - exact w_gone_empty.
Defined.

Lemma serveWs_registers_without_history_witness :
  sends (serveWs (repo:=FailingDB) 4 "lobby" "dave" true tt) = [] ∧
  ∃ w',
    run (repo:=FailingDB) (serveWs (repo:=FailingDB) 4 "lobby" "dave" true tt)
      (NewHub tt) = Some (Next w') ∧
    mkClient 4 "lobby" "dave" ∈ clients (hub w') ∧
    mkClient 4 "lobby" "dave" ∈ members (hub w') "lobby" ∧
    chan_of w' (mkClient 4 "lobby" "dave") = newChan ∧
    trace w' = trace (NewHub tt) ++ [Logged "GetLastMessages error:"].
Proof.
  apply (serveWs_registers_without_history (repo:=FailingDB)
           (json:=MiniJson.codec) 4 "lobby" "dave" tt [] (NewHub tt)).
  - discriminate.
  - discriminate.
  - reflexivity.
  - apply fresh_NewHub.
Defined.

Lemma readPump_stops_at_the_first_read_error_witness :
  readPump alice ([Frame hello T] ++ ReadError :: [Frame ping T]) =
    readPump alice [Frame hello T]
      ++ [AEvent (Unregister alice); AConnClose alice] ∧
  reading ([Frame hello T] ++ ReadError :: [Frame ping T]) = false.
Proof.
  apply (readPump_stops_at_the_first_read_error (json:=MiniJson.codec)
           alice [Frame hello T] [Frame ping T]).
  constructor; [discriminate|constructor].
Defined.

Lemma typing_status_is_forwarded_as_decoded_witness :
  events (readPump_frame typing T) =
    [Broadcast (default EmptyString
                  (marshalTyping "typing_status"
                     (Room (mkEnvelope "typing_status" "lobby"
                              (MiniJson.js "{'user':'carol','status':true}")))
                     (mkTypingStatus "carol" true)))] ∧
  ∀ now', events (readPump_frame typing now')
          = events (readPump_frame typing T).
Proof.
  apply (typing_status_is_forwarded_as_decoded (json:=MiniJson.codec)
           typing T
           (mkEnvelope "typing_status" "lobby"
              (MiniJson.js "{'user':'carol','status':true}"))
           false (mkTypingStatus "carol" true) false).
  - exact typing_envelope.
  - reflexivity.
  - exact typing_payload.
Defined.

Lemma writePump_writes_the_queue_in_order_witness :
  wrote alice (trace w_full) `prefix_of` sent_to alice (trace w_full) ∧
  (alice ∉ stopped w_full →
   sent_to alice (trace w_full)
   = wrote alice (trace w_full) ++ buf (chan_of w_full alice)).
Proof.
  apply (writePump_writes_the_queue_in_order (repo:=MockDB)
           (json:=MiniJson.codec) w_full alice).
  exact (proj1 w_full_facts).
Defined.


Lemma failed_write_ends_the_pump_witness :
  sys_step w_full (AWrite alice true)
    (Next (stop alice
             (emit (Logged "WriteMessage error: ")
                (set_chan alice (mkChan (repeat hello 255) false) w_full)))) ∧
  (∀ acts w',
    exec (stop alice
            (emit (Logged "WriteMessage error: ")
               (set_chan alice (mkChan (repeat hello 255) false) w_full)))
         acts (Next w') →
    alice ∈ stopped w' ∧ wrote alice (trace w') = wrote alice (trace w_full)).
Proof.
  split; [exact w_full_write_fails|].
  apply (failed_write_ends_the_pump (repo:=MockDB) (json:=MiniJson.codec)
           w_full alice).
  exact w_full_write_fails.
Defined.

Lemma serveWs_registers_with_the_history_queued_witness :
  ∃ w',
    run (serveWs 4 "lobby" "dave" true T) w_alice = Some (Next w') ∧
    mkClient 4 "lobby" "dave" ∈ clients (hub w') ∧
    mkClient 4 "lobby" "dave" ∈ members (hub w') "lobby" ∧
    chan_of w' (mkClient 4 "lobby" "dave") =
      mkChan (omap (marshalChat "chat_message" "lobby")
                [mkMessage "Alice" "Hello!" (T - 10);
                 mkMessage "Bob" "Hi Alice!" (T - 5)]) false ∧
    wrote (mkClient 4 "lobby" "dave") (trace w') = [] ∧
    ∀ c', c' ≠ mkClient 4 "lobby" "dave" →
          chan_of w' c' = chan_of w_alice c' ∧
          (c' ∈ clients (hub w') ↔ c' ∈ clients (hub w_alice)).
Proof.
  apply (serveWs_registers_with_the_history_queued
           (repo:=MockDB) (json:=MiniJson.codec) 4 "lobby" "dave" T
           [mkMessage "Alice" "Hello!" (T - 10);
            mkMessage "Bob" "Hi Alice!" (T - 5)] w_alice).
  - discriminate.
  - discriminate.
  - reflexivity.
  - apply Nat.leb_le. reflexivity.
  - exact dave_is_fresh.
Defined.

Lemma serveWs_waits_on_a_long_history_witness :
  fresh (NewHub tt) (mkClient 4 "lobby" "dave") ∧
  (∀ o, ¬ exec (repo:=LongHistoryDB) (NewHub tt)
           (serveWs (repo:=LongHistoryDB) 4 "lobby" "dave" true tt) o).
Proof.
  split; [apply fresh_NewHub|].
  apply (serveWs_waits_on_a_long_history (repo:=LongHistoryDB)
           (json:=MiniJson.codec) 4 "lobby" "dave" tt
           (repeat (mkMessage "Alice" "Hello!" 0) 257) (NewHub tt)).
  - discriminate.
  - discriminate.
  - reflexivity.
  - apply Nat.ltb_lt. vm_compute. reflexivity.
  - apply fresh_NewHub.
Defined.

Lemma registered_client_gets_the_next_broadcast_witness :
  (∀ o, step w_alice (Broadcast hello) o →
        sent_to bob (trace (world_of o)) = sent_to bob (trace w_alice) ∧
        chan_of (world_of o) bob = chan_of w_alice bob) ∧
  (∀ o, Run w_alice [Register bob; Broadcast hello] o →
        ∃ w', o = Next w' ∧
              sent_to bob (trace w') = sent_to bob (trace w_alice) ++ [hello] ∧
              buf (chan_of w' bob) = buf (chan_of w_alice bob) ++ [hello]).
Proof.
  apply (registered_client_gets_the_next_broadcast
           (repo:=MockDB) (json:=MiniJson.codec) w_alice bob hello
           (mkEnvelope "chat_message" "lobby"
              (MiniJson.js "{'username':'alice','text':'hi','timestamp':0}"))).
  - exact w_alice_reachable.
  - exact bob_is_new.
  - by rewrite w_alice_chan.
  - exact hello_envelope.
  - reflexivity.
  - by rewrite w_alice_chan.
  - exact lobby_has_room.
Defined.

Lemma Legacy_eviction_then_panic_witness :
  full (chan_of LegacySample.w_full alice) = true ∧
  (∀ o, Legacy.step LegacySample.SaveMessage LegacySample.unmarshalMessage
         LegacySample.w_full (Broadcast LegacySample.hello) o →
    ∃ w', o = Next w' ∧
      (alice ∉ clients (hub w')) ∧
      rooms (hub w') = rooms (hub LegacySample.w_full) ∧
      closed (chan_of w' alice) = true ∧
      ∀ o', Legacy.step LegacySample.SaveMessage LegacySample.unmarshalMessage
              w' (Broadcast LegacySample.hello) o' →
            ∃ w'', o' = Panic w'' "send on closed channel").
Proof.
  split; [rewrite (proj2 legacy_w_full_facts); apply full_true; cbn [buf];
          rewrite repeat_length; reflexivity|].
  apply (Legacy_eviction_then_panic LegacySample.SaveMessage
           LegacySample.unmarshalMessage LegacySample.w_full
           LegacySample.hello alice).
  - rewrite legacy_hello_room.
    unfold members. rewrite (proj1 legacy_w_full_facts).
    exact w_alice_lobby.
  - rewrite (proj1 legacy_w_full_facts). exact alice_registered.
  - by rewrite (proj2 legacy_w_full_facts).
  - rewrite (proj2 legacy_w_full_facts). apply full_true. cbn [buf].
    rewrite repeat_length. reflexivity.
Defined.

Lemma Legacy_broadcast_after_unregister_panics_witness :
  (∃ o, Legacy.Run LegacySample.SaveMessage LegacySample.unmarshalMessage
          w_alice [Unregister alice; Broadcast LegacySample.hello] o) ∧
  ∀ o, Legacy.Run LegacySample.SaveMessage LegacySample.unmarshalMessage
         w_alice [Unregister alice; Broadcast LegacySample.hello] o →
       ∃ w', o = Panic w' "send on closed channel".
Proof.
  apply (Legacy_broadcast_after_unregister_panics LegacySample.SaveMessage
           LegacySample.unmarshalMessage w_alice alice LegacySample.hello).
  - exact alice_registered.
  - change (room alice) with "lobby". rewrite w_alice_lobby.
    by apply elem_of_singleton.
  - by rewrite w_alice_chan.
  - exact legacy_hello_room.
Defined.

Lemma Legacy_panics_only_on_a_departed_member_witness :
  registered_open w_gone ∧
  (∀ o, Legacy.step LegacySample.SaveMessage LegacySample.unmarshalMessage
         w_gone (Broadcast LegacySample.hello) o →
    (∃ w', o = Next w' ∧ registered_open w') ∨
    (∃ message w' c,
        Broadcast LegacySample.hello = Broadcast message ∧
        o = Panic w' "send on closed channel" ∧
        c ∈ members (hub w_gone)
              (Legacy.Room (LegacySample.unmarshalMessage message).1) ∧
        (c ∉ clients (hub w_gone)) ∧ closed (chan_of w_gone c) = true)).
Proof.
  split; [exact (inv_open _ (reachable_Inv _ w_gone_reachable))|].
  apply (Legacy_panics_only_on_a_departed_member LegacySample.SaveMessage
           LegacySample.unmarshalMessage w_gone
           (Broadcast LegacySample.hello)).
  - exact (inv_open _ (reachable_Inv _ w_gone_reachable)).
  - exact I.
Defined.

Lemma chat_message_comes_back_to_its_sender_witness :
  (∃ o, exec w_alice
          ((AEvent <$> events (readPump alice [Frame hello T]))
             ++ repeat (AWrite alice false)
                  (S (length (buf (chan_of w_alice alice))))) o) ∧
  ∀ o, exec w_alice
         ((AEvent <$> events (readPump alice [Frame hello T]))
            ++ repeat (AWrite alice false)
                 (S (length (buf (chan_of w_alice alice))))) o →
       ∃ w', o = Next w' ∧
             wrote alice (trace w')
             = wrote alice (trace w_alice) ++ buf (chan_of w_alice alice)
                 ++ [hello_forwarded] ∧
             buf (chan_of w' alice) = [].
Proof.
  apply (chat_message_comes_back_to_its_sender
           (repo:=MockDB) (json:=MiniJson.codec) w_alice alice hello T
           (mkEnvelope "chat_message" "lobby"
              (MiniJson.js "{'username':'alice','text':'hi','timestamp':0}"))
           false (mkMessage "alice" "hi" 0) false hello_forwarded
           (mkEnvelope "chat_message" "lobby"
              (MiniJson.js
                 "{'username':'alice','text':'hi','timestamp':1700000000}"))).
  - exact w_alice_reachable.
  - exact alice_registered.
  - exact w_alice_running.
  - exact hello_envelope.
  - reflexivity.
  - exact hello_payload.
  - exact hello_is_forwarded.
  - exact hello_forwarded_envelope.
  - reflexivity.
  - exact lobby_has_room.
Defined.

Lemma Legacy_frame_reaches_the_room_of_its_sender_witness :
  events (LegacyPumps.readPump LegacySample.marshalMessage alice
            [Frame "hi" T])
    = [Broadcast LegacySample.hello] ∧
  ∀ o, Legacy.Run LegacySample.SaveMessage LegacySample.unmarshalMessage
         w_alice
         (events (LegacyPumps.readPump LegacySample.marshalMessage alice
                    [Frame "hi" T])) o →
       ∃ w', o = Next w' ∧ hub w' = hub w_alice ∧
             (∀ c', c' ∈ members (hub w_alice) (room alice) →
                    chan_of w' c'
                    = mkChan (buf (chan_of w_alice c')
                                ++ [LegacySample.hello]) false) ∧
             (∀ c', c' ∉ members (hub w_alice) (room alice) →
                    chan_of w' c' = chan_of w_alice c').
Proof.
  apply (Legacy_frame_reaches_the_room_of_its_sender
           LegacySample.SaveMessage LegacySample.unmarshalMessage
           LegacySample.marshalMessage w_alice alice "hi" T
           LegacySample.hello).
  - exact legacy_hello_marshalled.
  - exact legacy_hello_room.
  - exact lobby_is_open.
Defined.
End SampleExtras.
